(** * futil sorting routines (sort.hpp): a shallow embedding and its properties

    The header [sort.hpp] provides [insertion_sort], [shell_sort] (with its
    helpers [knuth_seq] and [h_sort]) and a bottom-up [merge_sort].

    Modelling choices.
    - The storage an iterator points into is a [list A]; an iterator is the
      index ([nat]) of the element it designates.  [*it] is list lookup and
      an assignment through an iterator is list insert.
    - Dereferencing an iterator outside the storage is undefined behaviour in
      C++.  The model makes it an error: every routine returns [option], and
      [None] means that the run left the defined behaviour of the program.
    - [for]/[while] loops are iterations of [while], a loop combinator with an
      explicit iteration budget; running out of budget is [None] as well.
      The budgets used below are shown to be sufficient.
    - The comparator is a pure function [comp : A -> A -> bool].
    - [std::iter_swap], [std::merge] and [std::copy] belong to the C++
      standard library, not to the header; they are modelled as the
      standard specifies them.
    - The auxiliary buffer of [merge_sort] is a storage of its own, apart
      from the one that holds the range; what it holds when the call begins
      is an input of the model. *)

From Equations Require Import Equations.
From Stdlib Require Import Sorted Ascii.
From stdpp Require Import base option list numbers sorting.

Set Default Proof Using "Type".

(** ** Comparator contract *)

(** [comp] is a strict weak ordering: irreflexive, transitive, and with a
    transitive incomparability relation. *)
Record StrictWeakOrder {A : Type} (comp : A → A → bool) : Prop := {
  swo_irrefl : ∀ x, comp x x = false;
  swo_trans : ∀ x y z, comp x y = true → comp y z = true → comp x z = true;
  swo_incomp_trans : ∀ x y z,
    comp x y = false → comp y x = false →
    comp y z = false → comp z y = false →
    comp x z = false ∧ comp z x = false
}.

(** ** Loops *)

(** [while fuel cond body s] runs [body] as long as [cond] holds, at most
    [fuel] times.  The test comes first, as in a C++ [for] or [while]. *)
Fixpoint while {St : Type} (fuel : nat) (cond : St → bool)
    (body : St → option St) (s : St) : option St :=
  if cond s then
    match fuel with
    | 0 => None
    | S fuel' => s' ← body s; while fuel' cond body s'
    end
  else Some s.

(** ** Knuth sequence *)

(** [while (k < n/3) { k = 3*k + 1; }] started from some [k].  The callers
    pass a length, so [n] is not negative and C++ division is [Nat.div].
    [3*k + 1] is computed only when [k < n/3], so it is at most [n]: the
    arithmetic of an integer type that holds [n] does not wrap around. *)
Equations? knuth_loop (n k : nat) : nat by wf (n / 3 - k) lt :=
  knuth_loop n k with decide (k < n / 3) => {
    | left _ => knuth_loop n (3 * k + 1)
    | right _ => k }.
Proof. lia. Qed.

Definition knuth_seq (n : nat) : nat := knuth_loop n 1.

Section Sort.
Context {A : Type} (comp : A → A → bool).

(** ** Storage primitives *)

(** The elements at positions [lo], ..., [hi - 1]. *)
Definition slice (lo hi : nat) (l : list A) : list A :=
  take (hi - lo) (drop lo l).

(** [dst] with the elements of [src] stored from position [d] on. *)
Definition write_at (d : nat) (src dst : list A) : list A :=
  take d dst ++ src ++ drop (d + length src) dst.

(** [std::iter_swap(j, k)]. *)
Definition iter_swap (j k : nat) (mem : list A) : option (list A) :=
  x ← mem !! j; y ← mem !! k; Some (<[k:=x]> (<[j:=y]> mem)).

(** ** Insertion sort *)

(** The inner loop of [insertion_sort]:
    [for (j = i; j != first; --j) { k = prev(j); if (!comp( *j, *k)) break;
    iter_swap(j, k); }]. *)
Fixpoint insert_back (first j : nat) (mem : list A) : option (list A) :=
  if decide (j = first) then Some mem
  else match j with
       | 0 => None (* [--j] would leave the storage *)
       | S k =>
           x ← mem !! j; y ← mem !! k;
           if comp x y then mem' ← iter_swap j k mem; insert_back first k mem'
           else Some mem
       end.

Definition insertion_sort (first last : nat) (mem : list A) : option (list A) :=
  snd <$> while (last - first)
    (λ '(i, _), negb (i =? last))
    (λ '(i, m), m' ← insert_back first i m; Some (S i, m'))
    (first, mem).

(** ** Shell sort *)

(** The inner loop of [h_sort]:
    [for (j = i; j - first >= h; j -= h) { k = j - h;
    if (comp( *j, *k)) iter_swap(j, k); }]. *)
Definition h_sort_inner (first h i : nat) (mem : list A) : option (list A) :=
  snd <$> while i
    (λ '(j, _), h <=? j - first)
    (λ '(j, m),
       let k := j - h in
       x ← m !! j; y ← m !! k;
       m' ← (if comp x y then iter_swap j k m else Some m);
       Some (j - h, m'))
    (i, mem).

Definition h_sort (first last h : nat) (mem : list A) : option (list A) :=
  snd <$> while (last - (first + h))
    (λ '(i, _), i <? last)
    (λ '(i, m), m' ← h_sort_inner first h i m; Some (S i, m'))
    (first + h, mem).

Definition shell_sort (first last : nat) (mem : list A) : option (list A) :=
  let h0 := knuth_seq (last - first) in
  snd <$> while h0
    (λ '(h, _), 0 <? h)
    (λ '(h, m), m' ← h_sort first last h m; Some (h / 3, m'))
    (h0, mem).

(** ** Merge sort *)

(** [std::merge] on the two input sequences: the head of the second
    sequence is taken only when it is strictly smaller than the head of
    the first one. *)
Equations? merge_lists (l1 l2 : list A) : list A
    by wf (length l1 + length l2) lt :=
  merge_lists [] l2 := l2;
  merge_lists l1 [] := l1;
  merge_lists (x :: xs) (y :: ys) with comp y x => {
    | true => y :: merge_lists (x :: xs) ys
    | false => x :: merge_lists xs (y :: ys) }.
Proof. all: simpl; lia. Qed.

(** [std::merge(first1, last1, first2, last2, d, comp)], reading from
    [mem] and writing to [buf]; both input ranges and the output range
    have to lie within their storage. *)
Definition std_merge (first1 last1 first2 last2 d : nat)
    (mem buf : list A) : option (list A) :=
  if decide (first1 ≤ last1 ≤ length mem ∧ first2 ≤ last2 ≤ length mem
             ∧ d + (last1 - first1) + (last2 - first2) ≤ length buf)
  then Some (write_at d
               (merge_lists (slice first1 last1 mem) (slice first2 last2 mem))
               buf)
  else None.

(** [std::copy(sfirst, slast, d)], reading from [src] and writing to
    [dst]. *)
Definition std_copy (sfirst slast d : nat) (src dst : list A) : option (list A) :=
  if decide (sfirst ≤ slast ≤ length src ∧ d + (slast - sfirst) ≤ length dst)
  then Some (write_at d (slice sfirst slast src) dst)
  else None.

Definition cutoff : nat := 16.

(** The first loop of [merge_sort]: insertion sort on segments of
    [cutoff] elements, the last one possibly shorter. *)
Definition merge_sort_segments (first last : nat) (mem : list A)
    : option (list A) :=
  snd <$> while (last - first)
    (λ '(lo, _), lo <? last)
    (λ '(lo, m),
       let hi := lo + cutoff in
       let hi := if last <? hi then last else hi in
       m' ← insertion_sort lo hi m; Some (lo + cutoff, m'))
    (first, mem).

(** The inner loop of the second phase: one pass of merges of adjacent
    runs of [sz] elements, from [mem] into [buf]. *)
Definition merge_sort_pass (first last aux sz : nat) (mem buf : list A)
    : option (list A) :=
  snd <$> while (last - first)
    (λ '(lo, _), lo <? last - sz)
    (λ '(lo, b),
       let mid := lo + sz in
       let hi := lo + 2 * sz in
       let hi := if last <? hi then last else hi in
       b' ← std_merge lo mid mid hi (aux + (lo - first)) mem b;
       Some (lo + 2 * sz, b'))
    (first, buf).

(** [merge_sort] returns the storage of the range and the auxiliary
    buffer as they are when the call ends. *)
Definition merge_sort (first last aux : nat) (mem buf : list A)
    : option (list A * list A) :=
  let dim := last - first in
  mem ← merge_sort_segments first last mem;
  '(_, mem, buf) ← while dim
    (λ '(sz, _, _), sz <? dim)
    (λ '(sz, m, b),
       b' ← merge_sort_pass first last aux sz m b;
       m' ← std_copy aux (aux + dim) first b' m;
       Some (sz * 2, m', b'))
    (cutoff, mem, buf);
  Some (mem, buf).

End Sort.

(** * Specification vocabulary *)

(** ** Knuth sequence *)

(** The sequence k0 = 1, k_{i+1} = 3 k_i + 1 itself. *)
Fixpoint knuth_term (i : nat) : nat :=
  match i with
  | 0 => 1
  | S i' => 3 * knuth_term i' + 1
  end.

Definition is_knuth_term (k : nat) : Prop := ∃ i, knuth_term i = k.

(** [r] is the largest term of the sequence strictly below [b]. *)
Definition largest_term_below (b r : nat) : Prop :=
  is_knuth_term r ∧ r < b ∧ ∀ k, is_knuth_term k → k < b → k ≤ r.

(** [r] is the smallest term of the sequence that is at least [b]. *)
Definition smallest_term_from (b r : nat) : Prop :=
  is_knuth_term r ∧ b ≤ r ∧ ∀ k, is_knuth_term k → b ≤ k → r ≤ k.

(** ** Ranges *)

Section Vocabulary.
Context {A : Type} (comp : A → A → bool).

(** A range is non-decreasing when no element is smaller than an earlier
    one. *)
Definition nondecreasing (l : list A) : Prop :=
  ∀ i j x y, i < j → l !! i = Some x → l !! j = Some y → comp y x = false.

(** Elements that the ordering cannot tell apart keep their relative
    order from [l] to [l']. *)
Definition order_of_equals_kept (l l' : list A) : Prop :=
  ∀ k, filter (λ y, comp k y = false ∧ comp y k = false) l'
       = filter (λ y, comp k y = false ∧ comp y k = false) l.

(** What one run of the inner loop of [insertion_sort] does to the sorted
    prefix, kept with its last element first: [x] moves past every element
    it is smaller than and stops at the first one it is not smaller
    than. *)
Fixpoint sift (x : A) (acc : list A) : list A :=
  match acc with
  | [] => [x]
  | y :: acc' => if comp x y then y :: sift x acc' else x :: y :: acc'
  end.

(** Insertion sort as a function on lists; [insertion_sort] is shown to
    compute it on the range. *)
Definition isort (l : list A) : list A :=
  reverse (foldl (λ acc x, sift x acc) [] l).

(** [m'] is [m] with the elements at positions [first], ..., [last - 1]
    rearranged and every other position untouched. *)
Definition rearranged_within (first last : nat) (m m' : list A) : Prop :=
  length m' = length m ∧ m' ≡ₚ m ∧
  ∀ p, p < first ∨ last ≤ p → m' !! p = m !! p.

(** [m'] agrees with [m] at every position outside [first], ...,
    [last - 1]. *)
Definition same_outside (first last : nat) (m m' : list A) : Prop :=
  length m' = length m ∧ ∀ p, p < first ∨ last ≤ p → m' !! p = m !! p.

(** The element at the later position [p] is not smaller than the one at
    the earlier position [q]. *)
Definition ordered_at (m : list A) (q p : nat) : Prop :=
  ∀ x y, m !! p = Some x → m !! q = Some y → comp x y = false.

(** Every position of the range below [i] is in order with the position
    [h] before it. *)
Definition h_ordered_upto (first h i : nat) (m : list A) : Prop :=
  ∀ p, first + h ≤ p < i → ordered_at m (p - h) p.

End Vocabulary.

(** Ordering records by their first component. *)
Definition by_key {K L : Type} (lt : K → K → bool) (a b : K * L) : bool :=
  lt a.1 b.1.

(** ** Runs and passes *)

Section Runs.
Context {A : Type} (comp : A → A → bool).

(** [l] is made of sorted runs of [sz] elements each, the last one
    possibly shorter. *)
Definition sorted_runs (sz : nat) (l : list A) : Prop :=
  ∀ k, nondecreasing comp (take sz (drop (k * sz) l)).
End Runs.

Section Passes.
Context {A : Type} (comp : A → A → bool).

(** The passes of [h_sort] with the gaps [knuth_term i], ...,
    [knuth_term 0], in this order. *)
Fixpoint gap_passes (first last i : nat) (mem : list A) : option (list A) :=
  m ← h_sort comp first last (knuth_term i) mem;
  match i with
  | 0 => Some m
  | S i' => gap_passes first last i' m
  end.
End Passes.

(** * Properties *)

(** Exposes the body of a loop applied to a state, and the monadic binds
    of results that are known. *)
Ltac loop_step :=
  cbv beta iota zeta in *;
  cbn [fst snd mbind option_bind fmap option_fmap option_map mret option_ret] in *.

(** ** The loop rule *)

(** Total correctness of a loop from an invariant and a variant bounded by
    the budget. *)
Lemma while_rule {St : Type} (Inv : St → Prop) (mu : St → nat)
    (cond : St → bool) (body : St → option St) :
  (∀ s, Inv s → cond s = true →
        ∃ s', body s = Some s' ∧ Inv s' ∧ mu s' < mu s) →
  ∀ fuel s, Inv s → mu s ≤ fuel →
    ∃ s', while fuel cond body s = Some s' ∧ Inv s' ∧ cond s' = false.
Proof.
  intros Hstep fuel. induction fuel as [|fuel IH]; intros s Hs Hmu; simpl.
  - destruct (cond s) eqn:Hc; [|by eauto].
    destruct (Hstep s Hs Hc) as (s' & _ & _ & ?). lia.
  - destruct (cond s) eqn:Hc; [|by eauto].
    destruct (Hstep s Hs Hc) as (s' & -> & Hs' & Hlt). simpl.
    apply IH; [done|lia].
Qed.

Lemma while_true {St : Type} fuel (c : St → bool) (b : St → option St) s :
  c s = true → while (S fuel) c b s = s' ← b s; while fuel c b s'.
Proof. intros Hc. simpl. by rewrite Hc. Qed.

Lemma while_false {St : Type} fuel (c : St → bool) (b : St → option St) s :
  c s = false → while fuel c b s = Some s.
Proof. intros Hc. destruct fuel; simpl; by rewrite Hc. Qed.

(** ** Strict weak orderings *)

Section Order.
Context {A : Type} (comp : A → A → bool) (Hswo : StrictWeakOrder comp).

Lemma swo_asym x y : comp x y = true → comp y x = false.
Proof using Hswo.
  intros Hxy. destruct (comp y x) eqn:Hyx; [|done].
  pose proof (swo_trans comp Hswo x y x Hxy Hyx) as Hxx.
  by rewrite (swo_irrefl comp Hswo) in Hxx.
Qed.

(** "not greater" is transitive. *)
Lemma swo_le_trans x y z :
  comp y x = false → comp z y = false → comp z x = false.
Proof using Hswo.
  intros Hyx Hzy. destruct (comp z x) eqn:Hzx; [|done].
  destruct (comp x y) eqn:Hxy.
  { by rewrite (swo_trans comp Hswo z x y Hzx Hxy) in Hzy. }
  destruct (comp y z) eqn:Hyz.
  { by rewrite (swo_trans comp Hswo y z x Hyz Hzx) in Hyx. }
  destruct (swo_incomp_trans comp Hswo x y z Hxy Hyx Hyz Hzy) as [_ ?].
  congruence.
Qed.
End Order.

Lemma ltb_strict_weak_order : StrictWeakOrder Nat.ltb.
Proof.
  split.
  - intros x. apply Nat.ltb_irrefl.
  - intros x y z ?%Nat.ltb_lt ?%Nat.ltb_lt. apply Nat.ltb_lt. lia.
  - intros x y z ?%Nat.ltb_ge ?%Nat.ltb_ge ?%Nat.ltb_ge ?%Nat.ltb_ge.
    split; apply Nat.ltb_ge; lia.
Qed.

(** ** Knuth sequence *)

Lemma knuth_term_lt i : knuth_term i < knuth_term (S i).
Proof. simpl. lia. Qed.

Lemma knuth_term_mono i j : i ≤ j → knuth_term i ≤ knuth_term j.
Proof.
  induction 1 as [|j _ IH]; [done|].
  pose proof (knuth_term_lt j). lia.
Qed.

Lemma knuth_term_div3 i : knuth_term (S i) / 3 = knuth_term i.
Proof.
  simpl. symmetry. apply (Nat.div_unique _ 3 _ 1); lia.
Qed.

(** Started from the [i]-th term with all earlier terms below [n/3], the
    loop stops at the first term that is not below [n/3]. *)
Lemma knuth_loop_spec n k :
  ∀ i, k = knuth_term i → (∀ j, j < i → knuth_term j < n / 3) →
  ∃ i', knuth_loop n k = knuth_term i' ∧ n / 3 ≤ knuth_term i'
        ∧ ∀ j, j < i' → knuth_term j < n / 3.
Proof.
  funelim (knuth_loop n k); intros i Hk Hbelow.
  - match goal with
    | IH : ∀ i : nat, _ |- _ => apply (IH (S i))
    end.
    + simpl. lia.
    + intros j Hj. destruct (decide (j = i)) as [->|]; [lia|].
      apply Hbelow. lia.
  - exists i. split_and!; [done|lia|done].
Qed.

Lemma knuth_seq_spec n :
  ∃ i, knuth_seq n = knuth_term i ∧ n / 3 ≤ knuth_term i
       ∧ ∀ j, j < i → knuth_term j < n / 3.
Proof. apply (knuth_loop_spec n 1 0); [done|lia]. Qed.

Lemma knuth_seq_lt n : 1 < n → knuth_seq n < n.
Proof.
  intros Hn. destruct (knuth_seq_spec n) as (i & -> & _ & Hlt).
  destruct i as [|i]; [simpl; lia|].
  specialize (Hlt i (Nat.lt_succ_diag_r i)). simpl.
  pose proof (Nat.Div0.mul_div_le n 3). lia.
Qed.

(** ** Storage lemmas *)

Section Storage.
Context {A : Type}.
Implicit Types l pre seg post : list A.

Lemma slice_split first last l :
  first ≤ last ≤ length l →
  l = take first l ++ slice first last l ++ drop last l.
Proof.
  intros Hb. unfold slice.
  rewrite <-(take_drop first l) at 1. f_equal.
  rewrite <-(take_drop (last - first) (drop first l)) at 1. f_equal.
  rewrite drop_drop. f_equal. lia.
Qed.

Lemma length_slice first last l :
  first ≤ last ≤ length l → length (slice first last l) = last - first.
Proof. intros Hb. unfold slice. rewrite length_take, length_drop. lia. Qed.

Lemma slice_app pre seg post :
  slice (length pre) (length pre + length seg) (pre ++ seg ++ post) = seg.
Proof.
  unfold slice. rewrite drop_app_length.
  replace (length pre + length seg - length pre) with (length seg) by lia.
  apply take_app_length.
Qed.

Lemma lookup_second l a b l' : (l ++ a :: b :: l') !! S (length l) = Some b.
Proof.
  rewrite (cons_middle a), app_assoc.
  apply list_lookup_middle. rewrite length_app. simpl. lia.
Qed.

Lemma iter_swap_adjacent l a b l' :
  iter_swap (S (length l)) (length l) (l ++ a :: b :: l')
  = Some (l ++ b :: a :: l').
Proof.
  unfold iter_swap. rewrite lookup_second. simpl.
  rewrite list_lookup_middle by done. simpl. f_equal.
  apply list_eq. intros i.
  destruct (decide (i = length l)) as [->|Hi].
  { rewrite list_lookup_insert_eq, list_lookup_middle; [done..|].
    rewrite length_insert, length_app. simpl. lia. }
  rewrite list_lookup_insert_ne by done.
  destruct (decide (i = S (length l))) as [->|Hi'].
  { rewrite list_lookup_insert_eq, lookup_second; [done|].
    rewrite length_app. simpl. lia. }
  rewrite list_lookup_insert_ne by done.
  rewrite !lookup_app. destruct (l !! i) eqn:Hl; [done|].
  apply lookup_ge_None in Hl.
  destruct (i - length l) as [|[|n]] eqn:Hn; [lia|lia|done].
Qed.
End Storage.

(** ** Insertion sort on lists *)

Section InsertionSort.
Context {A : Type} (comp : A → A → bool).
Implicit Types l acc pre seg post : list A.

Lemma insert_back_unfold first j (mem : list A) :
  insert_back comp first j mem =
    if decide (j = first) then Some mem
    else match j with
         | 0 => None
         | S k =>
             x ← mem !! j; y ← mem !! k;
             if comp x y
             then mem' ← iter_swap j k mem; insert_back comp first k mem'
             else Some mem
         end.
Proof. by destruct j. Qed.

(** The inner loop refines [sift]. *)
Lemma insert_back_spec pre acc x post :
  insert_back comp (length pre) (length pre + length acc)
    (pre ++ reverse acc ++ x :: post)
  = Some (pre ++ reverse (sift comp x acc) ++ post).
Proof.
  revert post. induction acc as [|y acc IH]; intros post.
  - rewrite insert_back_unfold, decide_True by (simpl; lia). done.
  - rewrite insert_back_unfold, decide_False by (simpl; lia).
    simpl length. rewrite Nat.add_succ_r.
    rewrite reverse_cons, <-(app_assoc (reverse acc)), app_assoc. simpl.
    replace (length pre + length acc) with (length (pre ++ reverse acc))
      by (by rewrite length_app, length_reverse).
    rewrite lookup_second, list_lookup_middle by done. simpl.
    destruct (comp x y).
    + rewrite iter_swap_adjacent. simpl.
      rewrite length_app, length_reverse, <-app_assoc, IH.
      by rewrite reverse_cons, <-!app_assoc.
    + by rewrite !reverse_cons, <-!app_assoc.
Qed.

Lemma length_sift x acc : length (sift comp x acc) = S (length acc).
Proof.
  induction acc as [|y acc IH]; simpl; [done|].
  destruct (comp x y); simpl; lia.
Qed.

Lemma length_foldl_sift l :
  length (foldl (λ acc x, sift comp x acc) [] l) = length l.
Proof.
  induction l as [|x l IH] using rev_ind; [done|].
  rewrite foldl_snoc, length_sift, length_app. simpl. lia.
Qed.

(** The whole routine refines [isort] on the range and leaves the rest of
    the storage alone. *)
Lemma insertion_sort_app pre seg post :
  insertion_sort comp (length pre) (length pre + length seg)
    (pre ++ seg ++ post)
  = Some (pre ++ isort comp seg ++ post).
Proof.
  unfold insertion_sort.
  set (Inv := λ s : nat * list A, ∃ done todo,
         seg = done ++ todo ∧ s.1 = length pre + length done ∧
         s.2 = pre ++ reverse (foldl (λ acc x, sift comp x acc) [] done)
                   ++ todo ++ post).
  set (mu := λ s : nat * list A, length pre + length seg - s.1).
  match goal with
  | |- snd <$> while ?f0 ?c0 ?b0 ?s0 = _ =>
      destruct (while_rule Inv mu c0 b0) with (fuel := f0) (s := s0)
        as ([i m] & -> & (done & todo & Hseg & Hi & Hm) & Hc)
  end.
  - intros [i m] (done & todo & -> & Hi & Hm) Hc. simpl in *. subst i m.
    destruct todo as [|x todo].
    { rewrite app_nil_r in Hc. apply negb_true_iff, Nat.eqb_neq in Hc. done. }
    pose proof (insert_back_spec pre (foldl (λ acc x, sift comp x acc) [] done)
                  x (todo ++ post)) as Hib.
    rewrite length_foldl_sift in Hib.
    eexists. split; [simpl; by rewrite Hib|]. split.
    + exists (done ++ [x]), todo. rewrite <-app_assoc. split; [done|].
      simpl. rewrite foldl_snoc. split; [|done].
      rewrite length_app. simpl. lia.
    + unfold mu. simpl. rewrite !length_app. simpl. lia.
  - exists [], seg. done.
  - unfold mu. simpl. lia.
  - simpl in *. apply negb_false_iff, Nat.eqb_eq in Hc.
    assert (todo = []) as ->.
    { apply (f_equal length) in Hseg. rewrite length_app in Hseg.
      destruct todo; [done|simpl in *; lia]. }
    rewrite app_nil_r in Hseg. by subst.
Qed.

Lemma insertion_sort_spec first last (mem : list A) :
  first ≤ last ≤ length mem →
  insertion_sort comp first last mem
  = Some (take first mem ++ isort comp (slice first last mem) ++ drop last mem).
Proof.
  intros Hb.
  pose proof (insertion_sort_app (take first mem) (slice first last mem)
                (drop last mem)) as Happ.
  rewrite <-(slice_split first last mem Hb) in Happ.
  rewrite (length_slice first last mem Hb), length_take in Happ.
  rewrite <-Happ. f_equal; lia.
Qed.
End InsertionSort.

Section InsertionSortOrder.
Context {A : Type} (comp : A → A → bool) (Hswo : StrictWeakOrder comp).
Implicit Types l acc : list A.

Lemma nondecreasing_StronglySorted l :
  nondecreasing comp l ↔ StronglySorted (λ x y, comp y x = false) l.
Proof.
  induction l as [|a l IH].
  - split; [constructor|]. intros _ i j x y _ Hi. by destruct i.
  - rewrite StronglySorted_cons, Forall_lookup, <-IH. split.
    + intros Hnd. split.
      * intros i y Hy. by apply (Hnd 0 (S i) a y); [lia|..].
      * intros i j x y Hij Hx Hy. by apply (Hnd (S i) (S j) x y); [lia|..].
    + intros [Hhd Htl] i j x y Hij Hx Hy.
      destruct j as [|j]; [lia|]. destruct i as [|i]; simplify_eq/=.
      * by apply (Hhd j).
      * by apply (Htl i j); [lia|..].
Qed.

Lemma sift_Permutation x acc : sift comp x acc ≡ₚ x :: acc.
Proof.
  induction acc as [|y acc IH]; simpl; [done|].
  destruct (comp x y); [|done]. rewrite IH. apply Permutation_swap.
Qed.

Lemma isort_Permutation l : isort comp l ≡ₚ l.
Proof.
  unfold isort. rewrite reverse_Permutation.
  induction l as [|x l IH] using rev_ind; [done|].
  by rewrite foldl_snoc, sift_Permutation, IH, Permutation_cons_append.
Qed.

Lemma length_isort l : length (isort comp l) = length l.
Proof. apply Permutation_length, isort_Permutation. Qed.

(** The sorted prefix, last element first, stays sorted under [sift]. *)
Lemma sift_sorted x acc :
  StronglySorted (λ a b, comp a b = false) acc →
  StronglySorted (λ a b, comp a b = false) (sift comp x acc).
Proof using Hswo.
  induction acc as [|y acc IH]; simpl.
  { intros _. repeat constructor. }
  rewrite StronglySorted_cons. intros [Hy Hacc].
  destruct (comp x y) eqn:Hxy.
  - apply StronglySorted_cons. split; [|by apply IH].
    rewrite sift_Permutation. constructor; [|done].
    by apply (swo_asym comp Hswo).
  - apply StronglySorted_cons. split; [|by apply StronglySorted_cons].
    constructor; [done|].
    eapply Forall_impl; [exact Hy|]. intros z Hyz. simpl in *.
    by apply (swo_le_trans comp Hswo z y x).
Qed.

Lemma StronglySorted_reverse (R : relation A) l :
  StronglySorted R l → StronglySorted (flip R) (reverse l).
Proof.
  induction 1 as [|x l _ IH Hx]; [constructor|].
  rewrite reverse_cons. apply StronglySorted_app_2; [|done|repeat constructor].
  intros x1 x2 Hx1 ->%list_elem_of_singleton.
  rewrite elem_of_reverse in Hx1.
  rewrite Forall_forall in Hx. unfold flip. by apply Hx.
Qed.

Lemma isort_nondecreasing l : nondecreasing comp (isort comp l).
Proof using Hswo.
  apply nondecreasing_StronglySorted. unfold isort.
  apply (StronglySorted_reverse (λ a b, comp a b = false)).
  induction l as [|x l IH] using rev_ind; [constructor|].
  rewrite foldl_snoc. by apply sift_sorted.
Qed.

(** Stability: [sift] never moves an element past one that the ordering
    cannot tell apart from it. *)
Lemma sift_stable k x acc :
  filter (λ y, comp k y = false ∧ comp y k = false) (reverse (sift comp x acc))
  = filter (λ y, comp k y = false ∧ comp y k = false) (reverse acc ++ [x]).
Proof using Hswo.
  induction acc as [|y acc IH]; simpl; [done|].
  destruct (comp x y) eqn:Hxy; [|by rewrite !reverse_cons].
  rewrite !reverse_cons, !filter_app, IH, filter_app, <-!app_assoc. f_equal.
  rewrite !filter_cons, !filter_nil.
  repeat case_decide; try done.
  destruct (swo_incomp_trans comp Hswo x k y) as [? _]; [tauto..|congruence].
Qed.

Lemma isort_stable l : order_of_equals_kept comp l (isort comp l).
Proof using Hswo.
  intros k. unfold isort.
  induction l as [|x l IH] using rev_ind; [done|].
  by rewrite foldl_snoc, sift_stable, !filter_app, IH.
Qed.

Lemma isort_sorted l : nondecreasing comp l → isort comp l = l.
Proof.
  rewrite nondecreasing_StronglySorted. intros Hl. unfold isort.
  enough (foldl (λ acc x, sift comp x acc) [] l = reverse l) as ->
    by apply reverse_involutive.
  induction l as [|x l IH] using rev_ind; [done|].
  apply StronglySorted_app in Hl as (Hx & Hl & _).
  rewrite foldl_snoc, IH, reverse_snoc by done.
  destruct (reverse l) as [|y r] eqn:Hr; [done|]. simpl.
  rewrite (Hx y x); [done| |by apply list_elem_of_singleton].
  apply elem_of_reverse. rewrite Hr. by left.
Qed.
End InsertionSortOrder.

(** ** Frames *)

Section Frame.
Context {A : Type}.
Implicit Types m : list A.

Lemma rearranged_within_refl first last m : rearranged_within first last m m.
Proof. done. Qed.

Lemma rearranged_within_trans first last m1 m2 m3 :
  rearranged_within first last m1 m2 → rearranged_within first last m2 m3 →
  rearranged_within first last m1 m3.
Proof.
  intros (Hl1 & Hp1 & Ho1) (Hl2 & Hp2 & Ho2). split_and!.
  - congruence.
  - by rewrite Hp2.
  - intros p Hp. by rewrite Ho2, Ho1.
Qed.

Lemma rearranged_within_weaken first last first' last' m m' :
  first' ≤ first → last ≤ last' →
  rearranged_within first last m m' → rearranged_within first' last' m m'.
Proof.
  intros ?? (Hl & Hp & Ho). split_and!; [done..|].
  intros p Hp'. apply Ho. lia.
Qed.

Lemma lookup_swap m j k x y p :
  j < length m → k < length m → j ≠ k →
  <[k:=x]> (<[j:=y]> m) !! p =
    if decide (p = k) then Some x
    else if decide (p = j) then Some y else m !! p.
Proof.
  intros Hj Hk Hjk. rewrite !list_lookup_insert, length_insert.
  repeat case_decide; try done; lia.
Qed.

Lemma iter_swap_rearranged first last j k m :
  first ≤ j < last → first ≤ k < last → last ≤ length m →
  ∃ x y, m !! j = Some x ∧ m !! k = Some y ∧
    iter_swap j k m = Some (<[k:=x]> (<[j:=y]> m)) ∧
    rearranged_within first last m (<[k:=x]> (<[j:=y]> m)).
Proof.
  intros Hj Hk Hlast.
  destruct (lookup_lt_is_Some_2 m j) as [x Hx]; [lia|].
  destruct (lookup_lt_is_Some_2 m k) as [y Hy]; [lia|].
  exists x, y. unfold iter_swap. rewrite Hx, Hy.
  do 3 (split; [done|]). split; [|split].
  - by rewrite !length_insert.
  - by apply Permutation_insert_swap.
  - intros p Hp. rewrite !list_lookup_insert_ne by lia. done.
Qed.

(** Seen from the range: the parts before and after it are the same
    lists, and the range holds a permutation of what it held. *)
Lemma rearranged_within_slice first last m m' :
  first ≤ last ≤ length m → rearranged_within first last m m' →
  take first m' = take first m ∧ drop last m' = drop last m ∧
  slice first last m' ≡ₚ slice first last m.
Proof.
  intros Hb (Hl & Hp & Ho).
  assert (take first m' = take first m) as Htake.
  { apply list_eq. intros i. rewrite !lookup_take.
    case_decide; [|done]. apply Ho. lia. }
  assert (drop last m' = drop last m) as Hdrop.
  { apply list_eq. intros i. rewrite !lookup_drop. apply Ho. lia. }
  split_and!; [done..|].
  assert (take first m' ++ slice first last m' ++ drop last m'
          ≡ₚ take first m ++ slice first last m ++ drop last m) as Hp'.
  { by rewrite <-!slice_split by lia. }
  rewrite Htake, Hdrop in Hp'.
  apply (inj (app (take first m))) in Hp'.
  by apply (inj (λ l, l ++ drop last m)) in Hp'.
Qed.
End Frame.

(** ** Interleaved insertion sort and shell sort *)

Section HSort.
Context {A : Type} (comp : A → A → bool).
Implicit Types m : list A.

(** One run of the inner loop: the stride class of [i], ordered below
    [i], is ordered up to [i] afterwards.  While the moving element is
    smaller than its predecessor it is swapped down; from the first
    comparison that fails on, the remaining comparisons fail too, on
    elements that were in order already. *)
Lemma h_sort_inner_spec first last h i m0 :
  0 < h → first + h ≤ i < last → last ≤ length m0 →
  ∃ m, h_sort_inner comp first h i m0 = Some m ∧
       rearranged_within first last m0 m ∧
       (StrictWeakOrder comp → h_ordered_upto comp first h i m0 →
        h_ordered_upto comp first h (S i) m).
Proof.
  intros Hh Hi Hlast. unfold h_sort_inner.
  set (Inv := λ s : nat * list A,
    first ≤ s.1 ≤ i ∧ rearranged_within first last m0 s.2 ∧
    (StrictWeakOrder comp → h_ordered_upto comp first h i m0 →
     (∀ p, first + h ≤ p ≤ i → p ≠ s.1 → p ≠ s.1 + h →
           ordered_at comp s.2 (p - h) p) ∧
     (first + h ≤ s.1 → s.1 + h ≤ i → ordered_at comp s.2 (s.1 - h) (s.1 + h)) ∧
     (s.1 + h ≤ i → ordered_at comp s.2 s.1 (s.1 + h)))).
  match goal with
  | |- ∃ m, snd <$> while ?f0 ?c0 ?b0 ?s0 = _ ∧ _ =>
      destruct (while_rule Inv fst c0 b0) with (fuel := f0) (s := s0)
        as ([j m] & Hw & (Hj & Hfr & Hord) & Hc)
  end.
  - intros [j m] (Hj & Hfr & Hord) Hc. simpl in *.
    apply Nat.leb_le in Hc.
    pose proof Hfr as (Hlen & _ & _).
    destruct (lookup_lt_is_Some_2 m j) as [x Hx]; [lia|].
    destruct (lookup_lt_is_Some_2 m (j - h)) as [y Hy]; [lia|].
    rewrite Hx, Hy. simpl.
    destruct (comp x y) eqn:Hxy.
    + destruct (iter_swap_rearranged first last j (j - h) m)
        as (x' & y' & Hx' & Hy' & -> & Hsw); [lia..|].
      simplify_eq. simpl. eexists; split; [done|]. split; [|simpl; lia].
      split; [simpl; lia|]. split; [by eapply rearranged_within_trans|].
      intros Hswo H0. destruct (Hord Hswo H0) as (I1 & I2 & I3). simpl.
      split_and!.
      * intros p Hp Hp1 Hp2 a b. rewrite !lookup_swap by lia.
        repeat case_decide; try lia; intros Ha Hb.
        -- injection Hb as <-.
           apply (I2 ltac:(lia) ltac:(lia) a y); [|done].
           by replace (j + h) with p by lia.
        -- by apply (I1 p ltac:(lia) ltac:(lia) ltac:(lia) a b).
      * intros Hj1 Hj2 a b. rewrite !lookup_swap by lia.
        repeat case_decide; try lia; intros Ha Hb.
        injection Ha as <-.
        by apply (I1 (j - h) ltac:(lia) ltac:(lia) ltac:(lia) y b).
      * intros _ a b. rewrite !lookup_swap by lia.
        repeat case_decide; try lia; intros Ha Hb.
        injection Ha as <-. injection Hb as <-.
        by apply (swo_asym comp Hswo).
    + eexists; split; [done|]. split; [|simpl; lia].
      split; [simpl; lia|]. split; [done|].
      intros Hswo H0. destruct (Hord Hswo H0) as (I1 & I2 & I3). simpl.
      split_and!.
      * intros p Hp Hp1 Hp2. destruct (decide (p = j + h)) as [->|Hne].
        -- replace (j + h - h) with j by lia. apply I3. lia.
        -- apply I1; [lia|lia|lia].
      * intros Hj1 Hj2 a b Ha Hb.
        replace (j - h + h) with j in Ha by lia.
        rewrite Hx in Ha. injection Ha as <-.
        apply (swo_le_trans comp Hswo b y x); [|done].
        by apply (I1 (j - h) ltac:(lia) ltac:(lia) ltac:(lia)).
      * intros _ a b Ha Hb.
        replace (j - h + h) with j in Ha by lia.
        rewrite Hx in Ha. rewrite Hy in Hb. by simplify_eq.
  - split; [simpl; lia|]. split; [done|]. intros Hswo H0. simpl. split_and!.
    + intros p Hp Hp1 Hp2. apply H0. lia.
    + lia.
    + lia.
  - simpl. lia.
  - simpl in *. apply Nat.leb_gt in Hc.
    exists m. rewrite Hw. split; [done|]. split; [done|].
    intros Hswo H0 p Hp. destruct (Hord Hswo H0) as (I1 & I2 & I3).
    destruct (decide (p = j + h)) as [->|Hne].
    + replace (j + h - h) with j by lia. apply I3. lia.
    + apply I1; lia.
Qed.

Lemma h_sort_spec first last h m0 :
  0 < h → first ≤ last ≤ length m0 →
  ∃ m, h_sort comp first last h m0 = Some m ∧
       rearranged_within first last m0 m ∧
       (StrictWeakOrder comp → h_ordered_upto comp first h last m).
Proof.
  intros Hh Hb. unfold h_sort.
  set (Inv := λ s : nat * list A,
    first + h ≤ s.1 ∧ rearranged_within first last m0 s.2 ∧
    (StrictWeakOrder comp → h_ordered_upto comp first h s.1 s.2)).
  match goal with
  | |- ∃ m, snd <$> while ?f0 ?c0 ?b0 ?s0 = _ ∧ _ =>
      destruct (while_rule Inv (λ s, last - s.1) c0 b0)
        with (fuel := f0) (s := s0)
        as ([i m] & Hw & (Hi & Hfr & Hord) & Hc)
  end.
  - intros [i m] (Hi & Hfr & Hord) Hc. simpl in *.
    apply Nat.ltb_lt in Hc. pose proof Hfr as (Hlen & _ & _).
    destruct (h_sort_inner_spec first last h i m)
      as (m' & -> & Hfr' & Hord'); [lia..|].
    simpl. eexists; split; [done|]. split; [|simpl; lia].
    split; [simpl; lia|]. split; [by eapply rearranged_within_trans|].
    simpl. auto.
  - split; [simpl; lia|]. split; [done|]. intros _ p Hp. simpl in *. lia.
  - simpl. lia.
  - simpl in *. apply Nat.ltb_ge in Hc. exists m. rewrite Hw.
    split; [done|]. split; [done|].
    intros Hswo p Hp. apply Hord; [done|lia].
Qed.

(** In an [h]-ordered range, elements any number of strides apart are in
    order. *)
Lemma h_ordered_strides first last h m :
  StrictWeakOrder comp → 0 < h → last ≤ length m →
  h_ordered_upto comp first h last m →
  ∀ n p, 0 < n → first + n * h ≤ p < last → ordered_at comp m (p - n * h) p.
Proof.
  intros Hswo Hh Hlast Hord n. induction n as [|n IH]; [lia|].
  intros p _ Hp. destruct (decide (n = 0)) as [->|Hn].
  { rewrite Nat.mul_1_l in *. by apply Hord. }
  simpl in Hp. intros x z Hx Hz.
  destruct (lookup_lt_is_Some_2 m (p - h)) as [y Hy]; [lia|].
  apply (swo_le_trans comp Hswo z y x).
  - apply (IH (p - h) ltac:(lia) ltac:(lia) y z); [done|].
    rewrite <-Hz. f_equal. simpl. lia.
  - by apply (Hord p ltac:(lia) x y).
Qed.

Lemma lookup_slice first last m i :
  i < last - first → slice first last m !! i = m !! (first + i).
Proof. intros Hi. unfold slice. by rewrite lookup_take_lt, lookup_drop. Qed.

Lemma slice_nondecreasing first last m :
  first ≤ last ≤ length m →
  nondecreasing comp (slice first last m) ↔
  ∀ p q, first ≤ q < p → p < last → ordered_at comp m q p.
Proof.
  intros Hb. split.
  - intros Hnd p q Hq Hp x y Hx Hy.
    apply (Hnd (q - first) (p - first) y x); [lia|..].
    + rewrite lookup_slice by lia. rewrite <-Hy. f_equal. lia.
    + rewrite lookup_slice by lia. rewrite <-Hx. f_equal. lia.
  - intros Hord i j x y Hij Hx Hy.
    assert (j < last - first).
    { apply lookup_lt_Some in Hy. rewrite length_slice in Hy; lia. }
    rewrite lookup_slice in Hx, Hy by lia.
    by apply (Hord (first + j) (first + i) ltac:(lia) ltac:(lia) y x).
Qed.

(** A 1-ordered range is non-decreasing. *)
Lemma one_ordered_nondecreasing first last m :
  StrictWeakOrder comp → first ≤ last ≤ length m →
  h_ordered_upto comp first 1 last m → nondecreasing comp (slice first last m).
Proof.
  intros Hswo Hb Hord. apply slice_nondecreasing; [done|].
  intros p q Hq Hp.
  pose proof (h_ordered_strides first last 1 m Hswo ltac:(lia) ltac:(lia)
                Hord (p - q) p ltac:(lia) ltac:(lia)) as Hpq.
  by replace (p - (p - q) * 1) with q in Hpq by lia.
Qed.

Lemma shell_sort_spec first last m0 :
  first ≤ last ≤ length m0 →
  ∃ m, shell_sort comp first last m0 = Some m ∧
       rearranged_within first last m0 m ∧
       (StrictWeakOrder comp → nondecreasing comp (slice first last m)).
Proof.
  intros Hb. unfold shell_sort.
  set (Inv := λ s : nat * list A,
    rearranged_within first last m0 s.2 ∧
    (is_knuth_term s.1 ∨
     s.1 = 0 ∧ (StrictWeakOrder comp → h_ordered_upto comp first 1 last s.2))).
  match goal with
  | |- ∃ m, snd <$> while ?f0 ?c0 ?b0 ?s0 = _ ∧ _ =>
      destruct (while_rule Inv fst c0 b0) with (fuel := f0) (s := s0)
        as ([h m] & Hw & (Hfr & Hh) & Hc)
  end.
  - intros [h m] (Hfr & Hh) Hc. cbn -[Nat.div Nat.ltb] in *.
    apply Nat.ltb_lt in Hc.
    destruct Hh as [[i Hi]|[? _]]; [|lia].
    pose proof Hfr as (Hlen & _ & _).
    destruct (h_sort_spec first last h m) as (m' & -> & Hfr' & Hord');
      [lia..|].
    cbn -[Nat.div]. eexists; split; [done|].
    split; [|cbn [fst]; apply Nat.div_lt; lia].
    split; [by eapply rearranged_within_trans|]. cbn [fst snd].
    destruct i as [|i]; subst h.
    + right. split; [done|]. exact Hord'.
    + left. exists i. by rewrite knuth_term_div3.
  - split; [done|]. left. simpl.
    destruct (knuth_seq_spec (last - first)) as (i & -> & _). by exists i.
  - done.
  - simpl in *. apply Nat.ltb_ge in Hc. exists m. rewrite Hw.
    split; [done|]. split; [done|]. intros Hswo.
    pose proof Hfr as (Hlen & _ & _).
    apply one_ordered_nondecreasing; [done|lia|].
    destruct Hh as [[i Hi]|[_ Hord]]; [|by apply Hord].
    destruct i; simpl in Hi; lia.
Qed.
End HSort.

(** ** Merge sort *)

Section MergeLists.
Context {A : Type} (comp : A → A → bool).
Implicit Types l : list A.

Lemma merge_lists_Permutation l1 l2 : merge_lists comp l1 l2 ≡ₚ l1 ++ l2.
Proof.
  funelim (merge_lists comp l1 l2); simp merge_lists.
  - done.
  - by rewrite app_nil_r.
  - rewrite H. by rewrite (Permutation_middle (x :: xs)).
  - by rewrite H.
Qed.

Lemma length_merge_lists l1 l2 :
  length (merge_lists comp l1 l2) = length l1 + length l2.
Proof. by rewrite merge_lists_Permutation, length_app. Qed.

Lemma merge_lists_nondecreasing l1 l2 :
  StrictWeakOrder comp →
  nondecreasing comp l1 → nondecreasing comp l2 →
  nondecreasing comp (merge_lists comp l1 l2).
Proof.
  intros Hswo. rewrite !nondecreasing_StronglySorted.
  funelim (merge_lists comp l1 l2); simp merge_lists; try done.
  all: rewrite !StronglySorted_cons.
  all: intros [Hx Hxs] [Hy Hys].
  - split; [|by apply H; [|apply StronglySorted_cons|]].
    rewrite merge_lists_Permutation. apply Forall_app. split; [|done].
    pose proof (swo_asym comp Hswo y x Heq) as Hyx.
    constructor; [done|]. eapply Forall_impl; [exact Hx|].
    intros z Hz. simpl in *. by apply (swo_le_trans comp Hswo y x z).
  - split; [|by apply H; [| |apply StronglySorted_cons]].
    rewrite merge_lists_Permutation. apply Forall_app. split; [done|].
    constructor; [done|]. eapply Forall_impl; [exact Hy|].
    intros z Hz. simpl in *. by apply (swo_le_trans comp Hswo x y z).
Qed.
End MergeLists.

Section MergeSort.
Context {A : Type} (comp : A → A → bool).
Implicit Types m mem buf : list A.

Lemma rearranged_same_outside first last m m' :
  rearranged_within first last m m' → same_outside first last m m'.
Proof. intros (? & _ & ?). by split. Qed.

Lemma same_outside_trans first last m1 m2 m3 :
  same_outside first last m1 m2 → same_outside first last m2 m3 →
  same_outside first last m1 m3.
Proof.
  intros [Hl1 Ho1] [Hl2 Ho2]. split; [congruence|].
  intros p Hp. by rewrite Ho2, Ho1.
Qed.

Lemma lookup_slice_full first last m i :
  slice first last m !! i =
    if decide (i < last - first) then m !! (first + i) else None.
Proof.
  unfold slice. case_decide.
  - by rewrite lookup_take_lt, lookup_drop.
  - apply lookup_take_ge. lia.
Qed.

Lemma same_outside_slice lo hi a b m m' :
  same_outside lo hi m m' → b ≤ lo ∨ hi ≤ a →
  slice a b m' = slice a b m.
Proof.
  intros [_ Ho] Hab. apply list_eq. intros i.
  rewrite !lookup_slice_full. case_decide; [|done]. apply Ho. lia.
Qed.

Lemma length_write_at d (src dst : list A) :
  d + length src ≤ length dst → length (write_at d src dst) = length dst.
Proof.
  intros Hd. unfold write_at.
  rewrite !length_app, length_take, length_drop. lia.
Qed.

Lemma write_at_same_outside d (src dst : list A) :
  d + length src ≤ length dst →
  same_outside d (d + length src) dst (write_at d src dst).
Proof.
  intros Hd. split; [by apply length_write_at|].
  intros p Hp. unfold write_at. destruct Hp as [Hp|Hp].
  - rewrite lookup_app_l by (rewrite length_take; lia).
    by rewrite lookup_take_lt.
  - rewrite app_assoc, lookup_app_r;
      rewrite length_app, length_take; [|lia].
    rewrite lookup_drop. f_equal. lia.
Qed.

Lemma slice_write_at d (src dst : list A) :
  d + length src ≤ length dst →
  slice d (d + length src) (write_at d src dst) = src.
Proof.
  intros Hd. unfold write_at.
  pose proof (slice_app (take d dst) src (drop (d + length src) dst)) as Hs.
  rewrite length_take in Hs. by replace (d `min` length dst) with d in Hs by lia.
Qed.

Lemma insertion_sort_rearranged lo hi m :
  lo ≤ hi ≤ length m →
  ∃ m', insertion_sort comp lo hi m = Some m' ∧
        rearranged_within lo hi m m' ∧
        slice lo hi m' = isort comp (slice lo hi m).
Proof.
  intros Hb. rewrite insertion_sort_spec by done. eexists. split; [done|].
  pose proof (length_slice lo hi m Hb) as Hlen.
  assert (length (take lo m) = lo) as Hpre by (rewrite length_take; lia).
  split; [split_and!|].
  - rewrite (slice_split lo hi m Hb) at 4.
    rewrite !length_app. by rewrite length_isort.
  - rewrite (slice_split lo hi m Hb) at 4. by rewrite isort_Permutation.
  - intros p Hp. rewrite (slice_split lo hi m Hb) at 4. destruct Hp as [Hp|Hp].
    + by rewrite !lookup_app_l by lia.
    + rewrite !(app_assoc (take lo m)).
      rewrite !lookup_app_r; rewrite !length_app, ?length_isort; try lia.
      done.
  - pose proof (slice_app (take lo m) (isort comp (slice lo hi m))
                  (drop hi m)) as Hs.
    rewrite length_isort, Hpre, Hlen in Hs.
    by replace (lo + (hi - lo)) with hi in Hs by lia.
Qed.

Lemma merge_sort_segments_spec first last mem :
  first ≤ last ≤ length mem →
  ∃ m, merge_sort_segments comp first last mem = Some m ∧
       rearranged_within first last mem m.
Proof.
  intros Hb. unfold merge_sort_segments.
  set (Inv := λ s : nat * list A,
    first ≤ s.1 ∧ rearranged_within first last mem s.2).
  match goal with
  | |- ∃ m, snd <$> while ?f0 ?c0 ?b0 ?s0 = _ ∧ _ =>
      destruct (while_rule Inv (λ s, last - s.1) c0 b0)
        with (fuel := f0) (s := s0)
        as ([lo m] & Hw & (Hlo & Hfr) & Hc)
  end.
  - intros [lo m] (Hlo & Hfr) Hc. loop_step.
    apply Nat.ltb_lt in Hc. pose proof Hfr as (Hlen & _ & _).
    set (hi := if last <? lo + cutoff then last else lo + cutoff).
    assert (lo ≤ hi ≤ last) as Hhi.
    { subst hi. destruct (Nat.ltb_spec last (lo + cutoff)); unfold cutoff in *; lia. }
    destruct (insertion_sort_rearranged lo hi m) as (m' & -> & Hfr' & _);
      [lia|].
    loop_step. eexists; split; [done|].
    split; [|unfold cutoff; simpl; lia].
    split; [simpl; lia|]. simpl.
    eapply rearranged_within_trans; [done|].
    eapply rearranged_within_weaken; [| |done]; lia.
  - by split.
  - simpl. lia.
  - exists m. by rewrite Hw.
Qed.

Lemma merge_sort_pass_spec first last aux sz mem buf :
  0 < sz → first ≤ last ≤ length mem →
  aux + (last - first) ≤ length buf →
  ∃ b, merge_sort_pass comp first last aux sz mem buf = Some b ∧
       length b = length buf.
Proof.
  intros Hsz Hb Haux. unfold merge_sort_pass.
  set (Inv := λ s : nat * list A, first ≤ s.1 ∧ length s.2 = length buf).
  match goal with
  | |- ∃ m, snd <$> while ?f0 ?c0 ?b0 ?s0 = _ ∧ _ =>
      destruct (while_rule Inv (λ s, last - s.1) c0 b0)
        with (fuel := f0) (s := s0)
        as ([lo b] & Hw & (Hlo & Hlen) & Hc)
  end.
  - intros [lo b] (Hlo & Hlen) Hc. loop_step.
    apply Nat.ltb_lt in Hc.
    set (hi := if last <? lo + 2 * sz then last else lo + 2 * sz).
    assert (lo + sz ≤ hi ≤ last) as Hhi.
    { subst hi. destruct (Nat.ltb_spec last (lo + 2 * sz)); lia. }
    unfold std_merge. rewrite decide_True by lia. loop_step.
    eexists; split; [done|]. split; [|simpl; lia].
    split; [simpl; lia|]. simpl.
    rewrite length_write_at; [done|].
    rewrite length_merge_lists, !length_slice by lia. lia.
  - by split.
  - simpl. lia.
  - exists b. by rewrite Hw.
Qed.

(** Whatever the sizes, [merge_sort] runs to completion within the
    bounds of the storage and of the buffer, and writes to the range
    only. *)
Lemma merge_sort_frame first last aux mem buf :
  first ≤ last ≤ length mem →
  aux + (last - first) ≤ length buf →
  ∃ mem' buf', merge_sort comp first last aux mem buf = Some (mem', buf') ∧
    same_outside first last mem mem' ∧ length buf' = length buf.
Proof.
  intros Hb Haux. unfold merge_sort.
  destruct (merge_sort_segments_spec first last mem Hb) as (m1 & -> & Hfr1).
  loop_step.
  set (Inv := λ s : nat * list A * list A,
    0 < s.1.1 ∧ same_outside first last mem s.1.2 ∧
    length s.2 = length buf).
  match goal with
  | |- ∃ m b, while ?f0 ?c0 ?b0 ?s0 ≫= _ = _ ∧ _ =>
      destruct (while_rule Inv (λ s, last - first - s.1.1) c0 b0)
        with (fuel := f0) (s := s0)
        as ([[sz m] b] & Hw & (Hsz & Hfr & Hlen) & Hc)
  end.
  - intros [[sz m] b] (Hsz & Hfr & Hlen) Hc. loop_step.
    apply Nat.ltb_lt in Hc. pose proof Hfr as [Hlm _].
    destruct (merge_sort_pass_spec first last aux sz m b)
      as (b' & -> & Hlen'); [lia..|].
    loop_step. unfold std_copy. rewrite decide_True by lia. loop_step.
    eexists; split; [done|]. split; [|simpl; lia].
    split; [simpl; lia|]. simpl. split; [|congruence].
    eapply same_outside_trans; [done|].
    pose proof (write_at_same_outside first
                  (slice aux (aux + (last - first)) b') m) as Hwo.
    rewrite length_slice in Hwo by lia.
    replace (aux + (last - first) - aux) with (last - first) in Hwo by lia.
    replace (first + (last - first)) with last in Hwo by lia.
    apply Hwo. lia.
  - split; [unfold cutoff; simpl; lia|].
    split; [by apply rearranged_same_outside|done].
  - simpl. lia.
  - rewrite Hw. simpl. by eauto.
Qed.

Lemma slice_slice_app a b c m :
  a ≤ b ≤ c → slice a b m ++ slice b c m = slice a c m.
Proof.
  intros Hb. unfold slice.
  replace (c - a) with ((b - a) + (c - b)) by lia.
  rewrite <-take_take_drop, drop_drop. do 3 f_equal. lia.
Qed.

Lemma write_at_rearranged d (src dst : list A) :
  d + length src ≤ length dst →
  src ≡ₚ slice d (d + length src) dst →
  rearranged_within d (d + length src) dst (write_at d src dst).
Proof.
  intros Hd Hp. destruct (write_at_same_outside d src dst Hd) as [Hl Ho].
  split_and!; [done| |done].
  rewrite (slice_split d (d + length src) dst) at 2 by lia.
  unfold write_at. apply Permutation_app_head, Permutation_app_tail, Hp.
Qed.

(** A range of at most [cutoff] elements is sorted by the first loop
    alone, as one segment; no merge pass runs. *)
Lemma merge_sort_small first last aux mem buf :
  first ≤ last ≤ length mem → last - first ≤ 16 →
  merge_sort comp first last aux mem buf
  = m ← insertion_sort comp first last mem; Some (m, buf).
Proof.
  intros Hb Hdim. unfold merge_sort, merge_sort_segments.
  destruct (insertion_sort_rearranged first last mem Hb)
    as (m' & Hins & _).
  destruct (last - first) as [|n] eqn:Hn.
  - assert (last = first) as -> by lia.
    rewrite while_false by apply Nat.ltb_irrefl. loop_step.
    rewrite while_false by done. loop_step.
    unfold insertion_sort. rewrite Nat.sub_diag.
    rewrite while_false; [done|]. cbv beta iota. by rewrite Nat.eqb_refl.
  - rewrite while_true by (apply Nat.ltb_lt; lia).
    cbv beta iota zeta. unfold cutoff.
    replace (if last <? first + 16 then last else first + 16) with last.
    2:{ destruct (Nat.ltb_spec last (first + 16)); lia. }
    rewrite Hins. loop_step.
    rewrite while_false by (apply Nat.ltb_ge; lia). loop_step.
    by rewrite while_false by (apply Nat.ltb_ge; lia).
Qed.

(** A range of [cutoff + 1] elements: two segments, then one merge of
    the two and the copy back. *)
Lemma merge_sort_17 first aux mem buf :
  first + 17 ≤ length mem → aux + 17 ≤ length buf →
  merge_sort comp first (first + 17) aux mem buf
  = m1 ← insertion_sort comp first (first + 16) mem;
    m2 ← insertion_sort comp (first + 16) (first + 17) m1;
    let merged := merge_lists comp (slice first (first + 16) m2)
                    (slice (first + 16) (first + 17) m2) in
    Some (write_at first merged m2, write_at aux merged buf).
Proof.
  intros Hb Haux. unfold merge_sort, merge_sort_segments.
  replace (first + 17 - first) with 17 by lia.
  rewrite while_true by (apply Nat.ltb_lt; lia).
  cbv beta iota zeta. unfold cutoff.
  rewrite (proj2 (Nat.ltb_ge (first + 17) (first + 16))) by lia.
  destruct (insertion_sort_rearranged first (first + 16) mem)
    as (m1 & -> & Hfr1 & _); [lia|].
  pose proof Hfr1 as (Hl1 & _ & _).
  loop_step. rewrite while_true by (apply Nat.ltb_lt; lia).
  cbv beta iota zeta.
  rewrite (proj2 (Nat.ltb_lt (first + 17) (first + 16 + 16))) by lia.
  destruct (insertion_sort_rearranged (first + 16) (first + 17) m1)
    as (m2 & -> & Hfr2 & _); [lia|].
  pose proof Hfr2 as (Hl2 & _ & _).
  loop_step. rewrite while_false by (apply Nat.ltb_ge; lia).
  loop_step. rewrite while_true by (apply Nat.ltb_lt; lia).
  cbv beta iota zeta. unfold merge_sort_pass.
  replace (first + 17 - first) with 17 by lia.
  rewrite while_true by (apply Nat.ltb_lt; lia).
  cbv beta iota zeta.
  rewrite (proj2 (Nat.ltb_lt (first + 17) (first + 2 * 16))) by lia.
  unfold std_merge. rewrite decide_True by lia.
  loop_step. rewrite while_false by (apply Nat.ltb_ge; lia).
  loop_step. unfold std_copy.
  set (merged := merge_lists comp (slice first (first + 16) m2)
                   (slice (first + 16) (first + 17) m2)).
  assert (length merged = 17) as Hlm.
  { subst merged. rewrite length_merge_lists, !length_slice by lia. lia. }
  rewrite Nat.sub_diag, Nat.add_0_r.
  rewrite decide_True by (rewrite length_write_at; lia).
  loop_step. rewrite while_false by (apply Nat.ltb_ge; lia).
  loop_step. do 3 f_equal.
  rewrite <-Hlm. apply slice_write_at. lia.
Qed.

Lemma merge_sort_16_17 first last aux mem buf :
  last = first + 16 ∨ last = first + 17 →
  last ≤ length mem → aux + (last - first) ≤ length buf →
  ∃ mem' buf', merge_sort comp first last aux mem buf = Some (mem', buf') ∧
    rearranged_within first last mem mem' ∧
    (StrictWeakOrder comp → nondecreasing comp (slice first last mem')).
Proof.
  intros [->| ->] Hb Haux.
  - rewrite merge_sort_small by lia.
    destruct (insertion_sort_rearranged first (first + 16) mem)
      as (m' & -> & Hfr & Hs); [lia|].
    exists m', buf. split; [done|]. split; [done|].
    intros Hswo. rewrite Hs. by apply isort_nondecreasing.
  - rewrite merge_sort_17 by lia.
    destruct (insertion_sort_rearranged first (first + 16) mem)
      as (m1 & -> & Hfr1 & Hs1); [lia|].
    pose proof Hfr1 as (Hl1 & _ & _). loop_step.
    destruct (insertion_sort_rearranged (first + 16) (first + 17) m1)
      as (m2 & -> & Hfr2 & Hs2); [lia|].
    pose proof Hfr2 as (Hl2 & _ & _).
    loop_step.
    set (merged := merge_lists comp (slice first (first + 16) m2)
                     (slice (first + 16) (first + 17) m2)).
    assert (length merged = 17) as Hlm.
    { subst merged. rewrite length_merge_lists, !length_slice by lia. lia. }
    assert (merged ≡ₚ slice first (first + 17) m2) as Hpm.
    { subst merged. rewrite merge_lists_Permutation.
      by rewrite slice_slice_app by lia. }
    eexists _, _. split; [done|]. split.
    + eapply rearranged_within_trans.
      { eapply rearranged_within_weaken; [| |exact Hfr1]; lia. }
      eapply rearranged_within_trans.
      { eapply rearranged_within_weaken; [| |exact Hfr2]; lia. }
      rewrite <-Hlm. apply write_at_rearranged; rewrite Hlm; [lia|done].
    + intros Hswo. rewrite <-Hlm at 1. rewrite slice_write_at by lia.
      subst merged. apply merge_lists_nondecreasing; [done|..].
      * rewrite (same_outside_slice (first + 16) (first + 17) _ _ m1 m2);
          [|by apply rearranged_same_outside|lia].
        rewrite Hs1. by apply isort_nondecreasing.
      * rewrite Hs2. by apply isort_nondecreasing.
Qed.
End MergeSort.

(** ** The run left out by a merge pass *)

Section MergeSortDangling.
Context {A : Type} (comp : A → A → bool).
Implicit Types m mem buf : list A.

Lemma lookup_write_at d (src dst : list A) p :
  d + length src ≤ length dst →
  write_at d src dst !! p =
    if decide (d ≤ p < d + length src) then src !! (p - d) else dst !! p.
Proof.
  intros Hd. case_decide as Hp.
  - unfold write_at. rewrite lookup_app_r by (rewrite length_take; lia).
    rewrite length_take, lookup_app_l by lia. f_equal. lia.
  - apply write_at_same_outside; [done|lia].
Qed.

Lemma slice_write_at_inside d (src dst : list A) a b :
  d + length src ≤ length dst → a ≤ b ≤ length src →
  slice (d + a) (d + b) (write_at d src dst) = slice a b src.
Proof.
  intros Hd Hab. apply list_eq. intros i.
  rewrite !lookup_slice_full. repeat case_decide; try lia; [|done].
  rewrite lookup_write_at, decide_True by lia. f_equal. lia.
Qed.

Lemma slice_slice c d a b m :
  c + b ≤ d → slice a b (slice c d m) = slice (c + a) (c + b) m.
Proof.
  intros Hb. apply list_eq. intros i.
  rewrite !lookup_slice_full. repeat case_decide; try lia; [|done].
  f_equal. lia.
Qed.

(** A range of 40 elements.  The first pass merges the runs at offsets 0
    and 16; the run at offset 32 has no partner and is not stored to the
    buffer, yet the copy back takes all 40 buffer elements.  From then on
    the range holds, at offsets 32 to 39, what the buffer held there when
    the call began. *)
Lemma merge_sort_40 first aux mem buf :
  first + 40 ≤ length mem → aux + 40 ≤ length buf →
  ∃ mem' buf',
    merge_sort comp first (first + 40) aux mem buf = Some (mem', buf') ∧
    slice first (first + 40) mem' =
      merge_lists comp
        (merge_lists comp (isort comp (slice first (first + 16) mem))
                          (isort comp (slice (first + 16) (first + 32) mem)))
        (slice (aux + 32) (aux + 40) buf).
Proof.
  intros Hb Haux. unfold merge_sort, merge_sort_segments.
  replace (first + 40 - first) with 40 by lia.
  (* three segments *)
  rewrite while_true by (apply Nat.ltb_lt; lia).
  cbv beta iota zeta. unfold cutoff.
  rewrite (proj2 (Nat.ltb_ge (first + 40) (first + 16))) by lia.
  destruct (insertion_sort_rearranged comp first (first + 16) mem)
    as (m1 & -> & Hfr1 & Hs1); [lia|].
  pose proof Hfr1 as (Hl1 & _ & _).
  loop_step. rewrite while_true by (apply Nat.ltb_lt; lia).
  cbv beta iota zeta.
  rewrite (proj2 (Nat.ltb_ge (first + 40) (first + 16 + 16))) by lia.
  destruct (insertion_sort_rearranged comp (first + 16) (first + 16 + 16) m1)
    as (m2 & -> & Hfr2 & Hs2); [lia|].
  pose proof Hfr2 as (Hl2 & _ & _).
  loop_step. rewrite while_true by (apply Nat.ltb_lt; lia).
  cbv beta iota zeta.
  rewrite (proj2 (Nat.ltb_lt (first + 40) (first + 16 + 16 + 16))) by lia.
  destruct (insertion_sort_rearranged comp (first + 16 + 16) (first + 40) m2)
    as (m3 & -> & Hfr3 & Hs3); [lia|].
  pose proof Hfr3 as (Hl3 & _ & _).
  loop_step. rewrite while_false by (apply Nat.ltb_ge; lia).
  loop_step.
  (* what the two leading runs hold *)
  assert (slice first (first + 16) m3
          = isort comp (slice first (first + 16) mem)) as Hr1.
  { rewrite (same_outside_slice (first + 16 + 16) (first + 40) _ _ m2 m3);
      [|by apply rearranged_same_outside|lia].
    rewrite (same_outside_slice (first + 16) (first + 16 + 16) _ _ m1 m2);
      [|by apply rearranged_same_outside|lia].
    done. }
  assert (slice (first + 16) (first + 32) m3
          = isort comp (slice (first + 16) (first + 32) mem)) as Hr2.
  { rewrite (same_outside_slice (first + 16 + 16) (first + 40) _ _ m2 m3);
      [|by apply rearranged_same_outside|lia].
    replace (first + 32) with (first + 16 + 16) by lia. rewrite Hs2.
    by rewrite (same_outside_slice first (first + 16) _ _ mem m1);
      [|by apply rearranged_same_outside|lia]. }
  (* pass with sz = 16: one merge, of the runs at 0 and 16 *)
  rewrite while_true by (apply Nat.ltb_lt; lia).
  cbv beta iota zeta. unfold merge_sort_pass.
  replace (first + 40 - first) with 40 by lia.
  rewrite while_true by (apply Nat.ltb_lt; lia).
  cbv beta iota zeta.
  rewrite (proj2 (Nat.ltb_ge (first + 40) (first + 2 * 16))) by lia.
  unfold std_merge. rewrite decide_True by lia.
  loop_step. rewrite while_false by (apply Nat.ltb_ge; lia).
  loop_step. rewrite Nat.sub_diag, Nat.add_0_r.
  replace (first + 2 * 16) with (first + 32) by lia.
  rewrite Hr1, Hr2.
  set (M1 := merge_lists comp (isort comp (slice first (first + 16) mem))
               (isort comp (slice (first + 16) (first + 32) mem))).
  assert (length M1 = 32) as HM1.
  { subst M1. rewrite length_merge_lists, !length_isort, !length_slice by lia.
    lia. }
  set (b1 := write_at aux M1 buf).
  assert (length b1 = length buf) as Hb1
    by (subst b1; rewrite length_write_at; lia).
  unfold std_copy. rewrite decide_True by lia.
  loop_step.
  set (m4 := write_at first (slice aux (aux + 40) b1) m3).
  assert (length (slice aux (aux + 40) b1) = 40) as Hlc
    by (rewrite length_slice; lia).
  assert (length m4 = length m3) as Hl4
    by (subst m4; rewrite length_write_at; lia).
  assert (slice first (first + 32) m4 = M1) as Hm4a.
  { subst m4. rewrite <-(Nat.add_0_r first) at 1.
    rewrite slice_write_at_inside, slice_slice by lia.
    subst b1. rewrite Nat.add_0_r, <-HM1. apply slice_write_at. lia. }
  assert (slice (first + 32) (first + 40) m4
          = slice (aux + 32) (aux + 40) buf) as Hm4b.
  { subst m4. rewrite slice_write_at_inside, slice_slice by lia.
    subst b1. apply (same_outside_slice aux (aux + length M1));
      [apply write_at_same_outside|]; lia. }
  (* pass with sz = 32: one merge, of the runs at 0 and 32 *)
  rewrite while_true by (apply Nat.ltb_lt; lia).
  cbv beta iota zeta.
  replace (first + 40 - first) with 40 by lia.
  rewrite while_true by (apply Nat.ltb_lt; lia).
  cbv beta iota zeta.
  rewrite (proj2 (Nat.ltb_lt (first + 40) (first + 2 * (16 * 2)))) by lia.
  unfold std_merge. rewrite decide_True by lia.
  loop_step. rewrite while_false by (apply Nat.ltb_ge; lia).
  loop_step. rewrite Nat.sub_diag, Nat.add_0_r.
  replace (first + 16 * 2) with (first + 32) by lia.
  rewrite Hm4a, Hm4b.
  set (M2 := merge_lists comp M1 (slice (aux + 32) (aux + 40) buf)).
  assert (length M2 = 40) as HM2.
  { subst M2. rewrite length_merge_lists, HM1, length_slice by lia. lia. }
  rewrite decide_True by (rewrite length_write_at; lia).
  loop_step. rewrite while_false by (apply Nat.ltb_ge; lia).
  loop_step. eexists _, _. split; [done|].
  rewrite <-HM2 at 2. rewrite slice_write_at by lia.
  rewrite <-HM2 at 1. apply slice_write_at. lia.
Qed.
End MergeSortDangling.

(** ** Stability and sorted input *)

Lemma by_key_strict_weak_order {K L : Type} (lt : K → K → bool) :
  StrictWeakOrder lt → StrictWeakOrder (by_key (L:=L) lt).
Proof.
  intros [Hirr Htr Hinc]. split; unfold by_key.
  - intros x. apply Hirr.
  - intros x y z. apply Htr.
  - intros x y z. apply Hinc.
Qed.

Section Unchanged.
Context {A : Type} (comp : A → A → bool).
Implicit Types m mem : list A.

Lemma insertion_sort_stable first last mem :
  StrictWeakOrder comp → first ≤ last ≤ length mem →
  ∃ mem', insertion_sort comp first last mem = Some mem' ∧
    order_of_equals_kept comp (slice first last mem) (slice first last mem').
Proof.
  intros Hswo Hb.
  destruct (insertion_sort_rearranged comp first last mem Hb)
    as (mem' & -> & _ & Hs).
  exists mem'. split; [done|]. rewrite Hs. by apply isort_stable.
Qed.

Lemma insertion_sort_sorted_unchanged first last mem :
  first ≤ last ≤ length mem →
  nondecreasing comp (slice first last mem) →
  insertion_sort comp first last mem = Some mem.
Proof.
  intros Hb Hnd. rewrite insertion_sort_spec by done.
  rewrite isort_sorted by done. by rewrite <-slice_split.
Qed.

Lemma h_sort_sorted_unchanged first last h mem :
  0 < h → first ≤ last ≤ length mem →
  nondecreasing comp (slice first last mem) →
  h_sort comp first last h mem = Some mem.
Proof.
  intros Hh Hb Hnd. rewrite slice_nondecreasing in Hnd by done.
  unfold h_sort.
  match goal with
  | |- snd <$> while ?f0 ?c0 ?b0 ?s0 = _ =>
      destruct (while_rule (λ s : nat * list A, first + h ≤ s.1 ∧ s.2 = mem)
                  (λ s, last - s.1) c0 b0)
        with (fuel := f0) (s := s0)
        as ([i m] & Hw & (_ & Hm) & _)
  end; [|done|simpl; lia|by rewrite Hw; simpl in *; subst].
  intros [i m] [Hi Hm] Hc. loop_step. subst m. apply Nat.ltb_lt in Hc.
  enough (h_sort_inner comp first h i mem = Some mem) as ->.
  { loop_step. eexists. split; [done|]. simpl. split; [|lia]. split; [lia|done]. }
  unfold h_sort_inner.
  match goal with
  | |- snd <$> while ?f0 ?c0 ?b0 ?s0 = _ =>
      destruct (while_rule (λ s : nat * list A, s.1 ≤ i ∧ s.2 = mem)
                  fst c0 b0)
        with (fuel := f0) (s := s0)
        as ([j m] & Hw & (_ & Hm) & _)
  end; [|done|simpl; lia|by rewrite Hw; simpl in *; subst].
  intros [j m] [Hj Hm] Hc'. loop_step. subst m. apply Nat.leb_le in Hc'.
  destruct (lookup_lt_is_Some_2 mem j) as [x Hx]; [lia|].
  destruct (lookup_lt_is_Some_2 mem (j - h)) as [y Hy]; [lia|].
  rewrite Hx, Hy. loop_step.
  rewrite (Hnd j (j - h) ltac:(lia) ltac:(lia) x y Hx Hy). loop_step.
  eexists. split; [done|]. simpl. split; [|lia]. split; [lia|done].
Qed.

Lemma shell_sort_sorted_unchanged first last mem :
  first ≤ last ≤ length mem →
  nondecreasing comp (slice first last mem) →
  shell_sort comp first last mem = Some mem.
Proof.
  intros Hb Hnd. unfold shell_sort.
  match goal with
  | |- snd <$> while ?f0 ?c0 ?b0 ?s0 = _ =>
      destruct (while_rule (λ s : nat * list A, s.2 = mem) fst c0 b0)
        with (fuel := f0) (s := s0)
        as ([h m] & Hw & Hm & _)
  end; [|done|done|by rewrite Hw; simpl in *; subst].
  intros [h m] Hm Hc. loop_step. subst m. apply Nat.ltb_lt in Hc.
  rewrite h_sort_sorted_unchanged by done. loop_step.
  eexists. split; [done|]. split; [done|]. cbn [fst].
  apply Nat.div_lt; lia.
Qed.
(** No element at or above [x] is equivalent to one strictly below [x]. *)
Lemma filter_equiv_above k x y (l : list A) :
  StrictWeakOrder comp →
  comp y x = true → comp k y = false ∧ comp y k = false →
  Forall (λ z, comp z x = false) l →
  filter (λ z, comp k z = false ∧ comp z k = false) l = [].
Proof.
  intros Hswo Hyx Hy. induction 1 as [|z zs Hz _ IH]; [done|].
  rewrite filter_cons, IH. case_decide as Hk; [|done].
  destruct (swo_incomp_trans comp Hswo y k z) as [Hyz _]; [tauto..|].
  by rewrite (swo_le_trans comp Hswo x z y Hz Hyz) in Hyx.
Qed.

(** [std::merge] is stable when its first input is sorted: an element of
    the second input is taken before those elements of the first input
    only that are strictly greater. *)
Lemma merge_lists_stable k (l1 l2 : list A) :
  StrictWeakOrder comp → nondecreasing comp l1 →
  filter (λ y, comp k y = false ∧ comp y k = false) (merge_lists comp l1 l2)
  = filter (λ y, comp k y = false ∧ comp y k = false) (l1 ++ l2).
Proof.
  intros Hswo. rewrite nondecreasing_StronglySorted.
  funelim (merge_lists comp l1 l2); simp merge_lists; intros Hl1.
  - done.
  - by rewrite app_nil_r.
  - rewrite filter_cons, H by done.
    rewrite !filter_app, (filter_cons _ y).
    case_decide as Hy; [|done].
    enough (filter (λ y0, comp k y0 = false ∧ comp y0 k = false) (x :: xs)
            = []) as -> by done.
    apply StronglySorted_cons in Hl1 as [Hx _].
    apply (filter_equiv_above k x y); [done..|].
    constructor; [apply (swo_irrefl comp Hswo)|done].
  - apply StronglySorted_cons in Hl1 as [_ Hxs].
    simpl. by rewrite !filter_cons, H by done.
Qed.

(** Up to [cutoff + 1] elements [merge_sort] is stable. *)
Lemma merge_sort_stable_upto_17 first last aux mem buf :
  StrictWeakOrder comp →
  first ≤ last ≤ length mem → last - first ≤ 17 →
  aux + (last - first) ≤ length buf →
  ∃ mem' buf', merge_sort comp first last aux mem buf = Some (mem', buf') ∧
    order_of_equals_kept comp (slice first last mem) (slice first last mem').
Proof.
  intros Hswo Hb Hdim Haux.
  destruct (decide (last - first ≤ 16)) as [Hsmall|Hbig].
  - rewrite merge_sort_small by done.
    destruct (insertion_sort_rearranged comp first last mem Hb)
      as (m' & -> & _ & Hs).
    exists m', buf. split; [done|]. rewrite Hs. by apply isort_stable.
  - assert (last = first + 17) as -> by lia.
    rewrite merge_sort_17 by lia.
    destruct (insertion_sort_rearranged comp first (first + 16) mem)
      as (m1 & -> & Hfr1 & Hs1); [lia|].
    pose proof Hfr1 as (Hl1 & _ & _). loop_step.
    destruct (insertion_sort_rearranged comp (first + 16) (first + 17) m1)
      as (m2 & -> & Hfr2 & Hs2); [lia|].
    pose proof Hfr2 as (Hl2 & _ & _). loop_step.
    eexists _, _. split; [done|]. intros k.
    set (merged := merge_lists comp (slice first (first + 16) m2)
                     (slice (first + 16) (first + 17) m2)).
    assert (length merged = 17) as Hlm.
    { subst merged. rewrite length_merge_lists, !length_slice by lia. lia. }
    rewrite <-Hlm at 1. rewrite slice_write_at by lia. subst merged.
    assert (slice first (first + 16) m2
            = isort comp (slice first (first + 16) mem)) as Hr1.
    { by rewrite (same_outside_slice (first + 16) (first + 17) _ _ m1 m2);
        [|by apply rearranged_same_outside|lia]. }
    assert (slice (first + 16) (first + 17) m1
            = slice (first + 16) (first + 17) mem) as Hr2.
    { by rewrite (same_outside_slice first (first + 16) _ _ mem m1);
        [|by apply rearranged_same_outside|lia]. }
    rewrite merge_lists_stable; [|done|rewrite Hr1; by apply isort_nondecreasing].
    rewrite Hr1, Hs2, Hr2, !filter_app, !(isort_stable comp Hswo _ k).
    by rewrite <-filter_app, slice_slice_app by lia.
Qed.
End Unchanged.

(** ** Merge sort on ranges of any length *)

Section MergeSortRuns.
Context {A : Type} (comp : A → A → bool).
Implicit Types m mem buf b l : list A.

Lemma nondecreasing_nil : nondecreasing comp [].
Proof. intros i j x y _ Hx. by destruct i. Qed.

Lemma take_drop_slice first last m x w :
  first + x + w ≤ last →
  take w (drop x (slice first last m)) = slice (first + x) (first + x + w) m.
Proof.
  intros Hx. rewrite <-Nat.add_assoc, <-(slice_slice first last) by lia.
  unfold slice at 2. f_equal. lia.
Qed.

Lemma block_of_prefix x w n (l : list A) :
  x + w ≤ n → take w (drop x (take n l)) = take w (drop x l).
Proof.
  intros Hx. apply list_eq. intros i.
  rewrite !lookup_take. case_decide; [|done].
  rewrite !lookup_drop, lookup_take_lt by lia. done.
Qed.

(** Writing inside a window of the storage is writing to the window. *)
Lemma slice_write_at_window a n d (src b : list A) :
  a + n ≤ length b → d + length src ≤ n →
  slice a (a + n) (write_at (a + d) src b)
  = write_at d src (slice a (a + n) b).
Proof.
  intros Hb Hd. apply list_eq. intros i.
  rewrite lookup_slice_full.
  rewrite (lookup_write_at d src (slice a (a + n) b))
    by (rewrite length_slice; lia).
  rewrite lookup_slice_full.
  rewrite lookup_write_at by lia.
  repeat case_decide; try lia; try done.
  f_equal. lia.
Qed.

(** The first loop sorts each segment of [cutoff] elements by
    [insertion_sort] and touches nothing else. *)
Lemma merge_sort_segments_exact first last mem :
  first ≤ last ≤ length mem →
  ∃ m, merge_sort_segments comp first last mem = Some m ∧
       rearranged_within first last mem m ∧
       ∀ k, take 16 (drop (k * 16) (slice first last m))
            = isort comp (take 16 (drop (k * 16) (slice first last mem))).
Proof.
  intros Hb. unfold merge_sort_segments.
  set (L := slice first last mem).
  set (Inv := λ s : nat * list A,
    rearranged_within first last mem s.2 ∧
    ∃ j, s.1 = first + j * 16 ∧
      (∀ k, k < j → take 16 (drop (k * 16) (slice first last s.2))
                    = isort comp (take 16 (drop (k * 16) L))) ∧
      drop (j * 16) (slice first last s.2) = drop (j * 16) L).
  match goal with
  | |- ∃ m, snd <$> while ?f0 ?c0 ?b0 ?s0 = _ ∧ _ =>
      destruct (while_rule Inv (λ s, last - s.1) c0 b0)
        with (fuel := f0) (s := s0)
        as ([lo m] & Hw & (Hfr & j & Hlo & Hdone & Hrest) & Hc)
  end.
  - intros [lo m] (Hfr & j & Hlo & Hdone & Hrest) Hc. loop_step.
    apply Nat.ltb_lt in Hc. pose proof Hfr as (Hlen & _ & _). subst lo.
    set (hi := if last <? first + j * 16 + cutoff then last
               else first + j * 16 + cutoff).
    assert (first + j * 16 < hi ≤ last ∧ hi ≤ first + j * 16 + 16
            ∧ (hi = last ∨ hi = first + j * 16 + 16)) as Hhi.
    { subst hi. destruct (Nat.ltb_spec last (first + j * 16 + cutoff));
        unfold cutoff in *; lia. }
    destruct (insertion_sort_rearranged comp (first + j * 16) hi m)
      as (m' & -> & Hfr' & Hs); [lia|].
    loop_step. eexists; split; [done|].
    split; [|unfold cutoff; simpl; lia].
    pose proof Hfr' as (Hlen' & _ & _).
    split.
    { simpl. eapply rearranged_within_trans; [done|].
      eapply rearranged_within_weaken; [| |done]; lia. }
    exists (S j). cbn [fst snd]. split; [unfold cutoff; lia|].
    set (Lm := slice first last m) in *.
    set (Lm' := slice first last m').
    assert (length Lm = last - first) as HLm
      by (subst Lm; rewrite length_slice; lia).
    assert (length Lm' = last - first) as HLm'
      by (subst Lm'; rewrite length_slice; lia).
    assert (length L = last - first) as HL
      by (subst L; rewrite length_slice; lia).
    (* the window [first + j*16, hi) seen from the range *)
    assert (take (j * 16) Lm' = take (j * 16) Lm) as Hbefore.
    { apply list_eq. intros i. rewrite !lookup_take. case_decide; [|done].
      subst Lm Lm'. rewrite !lookup_slice_full. case_decide; [|done].
      apply Hfr'. lia. }
    assert (drop (j * 16 + 16) Lm' = drop (j * 16 + 16) Lm) as Hafter.
    { apply list_eq. intros i. rewrite !lookup_drop.
      subst Lm Lm'. rewrite !lookup_slice_full. case_decide; [|done].
      apply Hfr'. lia. }
    assert (take 16 (drop (j * 16) Lm')
            = isort comp (take 16 (drop (j * 16) Lm))) as Hnow.
    { assert (∀ X : list A, length X = last - first →
                take 16 (drop (j * 16) X) = take (hi - (first + j * 16)) (drop (j * 16) X))
        as Htk.
      { intros X HX. destruct Hhi as (Hhi1 & Hhi2 & [Hhi3|Hhi3]).
        - rewrite !take_ge; [done|rewrite length_drop; lia..].
        - f_equal. lia. }
      rewrite !Htk by done.
      subst Lm Lm'.
      rewrite !take_drop_slice by lia.
      replace (first + j * 16 + (hi - (first + j * 16))) with hi by lia.
      done. }
    split.
    + intros k Hk. destruct (decide (k = j)) as [->|Hkj].
      * by rewrite Hnow, Hrest.
      * rewrite <-(block_of_prefix (k * 16) 16 (j * 16) Lm') by lia.
        rewrite Hbefore, block_of_prefix by lia. apply Hdone. lia.
    + replace (S j * 16) with (j * 16 + 16) by lia.
      by rewrite Hafter, <-drop_drop, Hrest, drop_drop.
  - split; [done|]. exists 0. simpl. split; [lia|]. split; [lia|done].
  - simpl. lia.
  - simpl in *. apply Nat.ltb_ge in Hc. exists m. rewrite Hw.
    split; [done|]. split; [done|]. intros k.
    destruct (decide (k < j)) as [Hk|Hk]; [by apply Hdone|].
    pose proof Hfr as (Hlen & _ & _). subst L.
    rewrite !(drop_ge _ (k * 16)); [done|rewrite length_slice; lia..].
Qed.

Lemma same_outside_weaken first last first' last' m m' :
  first' ≤ first → last ≤ last' →
  same_outside first last m m' → same_outside first' last' m m'.
Proof. intros ?? [Hl Ho]. split; [done|]. intros p Hp. apply Ho. lia. Qed.

Lemma nondecreasing_take n l :
  nondecreasing comp l → nondecreasing comp (take n l).
Proof.
  intros Hnd i j x y Hij Hx Hy.
  apply lookup_take_Some in Hx as [Hx _]. apply lookup_take_Some in Hy as [Hy _].
  by apply (Hnd i j).
Qed.

(** One pass of merges.  The runs are merged in pairs as far as a run has
    a partner: up to offset [c], which is the end of the range or the
    start of the run left over.  From [c] on the buffer is not written. *)
Lemma merge_sort_pass_runs first last aux sz mem buf :
  0 < sz → first ≤ last ≤ length mem → aux + (last - first) ≤ length buf →
  ∃ b c, merge_sort_pass comp first last aux sz mem buf = Some b ∧
    same_outside aux (aux + (last - first)) buf b ∧
    (c = last - first ∧
       (last - first = 0 ∨
        ∃ j, j * (2 * sz) + sz < last - first ≤ S j * (2 * sz))
     ∨ ∃ j, c = j * (2 * sz) ∧ c < last - first ≤ c + sz) ∧
    slice aux (aux + (last - first)) b
      ≡ₚ take c (slice first last mem)
          ++ drop c (slice aux (aux + (last - first)) buf) ∧
    drop c (slice aux (aux + (last - first)) b)
      = drop c (slice aux (aux + (last - first)) buf) ∧
    (StrictWeakOrder comp → sorted_runs comp sz (slice first last mem) →
     ∀ k, k * (2 * sz) < c →
       nondecreasing comp
         (take (2 * sz) (drop (k * (2 * sz))
                           (slice aux (aux + (last - first)) b)))) ∧
    (StrictWeakOrder comp → sorted_runs comp sz (slice first last mem) →
     order_of_equals_kept comp
       (take c (slice first last mem)
        ++ drop c (slice aux (aux + (last - first)) buf))
       (slice aux (aux + (last - first)) b)).
Proof.
  intros Hsz Hb Haux. unfold merge_sort_pass.
  remember (last - first) as dim eqn:Hdim.
  remember (slice first last mem) as L eqn:HeqL.
  remember (slice aux (aux + dim) buf) as B0 eqn:HeqB0.
  assert (length L = dim) as HL by (subst L; rewrite length_slice; lia).
  assert (length B0 = dim) as HB0 by (subst B0; rewrite length_slice; lia).
  set (Inv := λ s : nat * list A,
    ∃ j, s.1 = first + j * (2 * sz) ∧
      (j = 0 ∨ ∃ j', j = S j' ∧ j' * (2 * sz) + sz < dim) ∧
      same_outside aux (aux + dim) buf s.2 ∧
      take (Nat.min (j * (2 * sz)) dim) (slice aux (aux + dim) s.2)
        ≡ₚ take (Nat.min (j * (2 * sz)) dim) L ∧
      drop (Nat.min (j * (2 * sz)) dim) (slice aux (aux + dim) s.2)
        = drop (Nat.min (j * (2 * sz)) dim) B0 ∧
      (StrictWeakOrder comp → sorted_runs comp sz L →
       ∀ k, k < j →
         nondecreasing comp
           (take (2 * sz) (drop (k * (2 * sz)) (slice aux (aux + dim) s.2)))) ∧
      (StrictWeakOrder comp → sorted_runs comp sz L →
       order_of_equals_kept comp
         (take (Nat.min (j * (2 * sz)) dim) L)
         (take (Nat.min (j * (2 * sz)) dim) (slice aux (aux + dim) s.2)))).
  match goal with
  | |- ∃ b c, snd <$> while ?f0 ?c0 ?b0 ?s0 = _ ∧ _ =>
      destruct (while_rule Inv (λ s, last - s.1) c0 b0)
        with (fuel := f0) (s := s0)
        as ([lo b] & Hw
           & (j & Hlo & Hlast & Hout & Hperm & Hrest & Hruns & Hkept) & Hc)
  end.
  - intros [lo b] (j & Hlo & _ & Hout & Hperm & Hrest & Hruns & Hkept) Hc.
    cbv beta iota zeta in Hc |- *. cbn [fst snd] in *.
    apply Nat.ltb_lt in Hc. subst lo.
    assert (∀ k, k < j → (k + 1) * (2 * sz) ≤ j * (2 * sz)) as Hblocks
      by (intros; nia).
    assert ((2 * j) * sz = j * (2 * sz)) as Hev by lia.
    assert ((2 * j + 1) * sz = j * (2 * sz) + sz) as Hod by lia.
    assert (S j * (2 * sz) = j * (2 * sz) + 2 * sz) as Hnext by lia.
    remember (j * (2 * sz)) as d eqn:Hdj.
    assert (d + sz < dim) as Hd by lia.
    replace (Nat.min d dim) with d in Hperm, Hrest, Hkept by lia.
    assert (∃ hi, (if last <? first + d + 2 * sz then last
                   else first + d + 2 * sz) = hi
                  ∧ first + d + sz < hi ≤ last ∧ hi - (first + d) ≤ 2 * sz
                  ∧ (hi = last ∨ hi - (first + d) = 2 * sz))
      as (hi & -> & Hhi1 & Hhi2 & Hhi3).
    { eexists. split; [done|].
      destruct (Nat.ltb_spec last (first + d + 2 * sz)); lia. }
    remember (hi - (first + d)) as w eqn:Hwd.
    pose proof Hout as [Hlenb _].
    unfold std_merge. rewrite decide_True by lia. loop_step.
    replace (first + d - first) with d by lia.
    remember (merge_lists comp (slice (first + d) (first + d + sz) mem)
                (slice (first + d + sz) hi mem)) as merged eqn:Hmerged.
    assert (length merged = w) as Hlm.
    { subst merged. rewrite length_merge_lists, !length_slice by lia. lia. }
    eexists; split; [done|]. split; [|simpl; lia].
    exists (S j). cbn [fst snd]. rewrite Hnext.
    replace (Nat.min (d + 2 * sz) dim) with (d + w) by lia.
    rewrite slice_write_at_window by lia.
    remember (slice aux (aux + dim) b) as Bc eqn:HeqBc.
    assert (length Bc = dim) as HBc by (subst Bc; rewrite length_slice; lia).
    assert (length (take d Bc) = d) as Htd by (rewrite length_take; lia).
    split; [lia|]. split; [right; exists j; split; [done|lia]|]. split.
    { eapply same_outside_trans; [done|].
      eapply same_outside_weaken;
        [| |apply write_at_same_outside]; lia. }
    assert (merged ≡ₚ take w (drop d L)) as Hpm.
    { subst merged. rewrite merge_lists_Permutation.
      rewrite slice_slice_app by lia. subst L.
      rewrite take_drop_slice by lia.
      by replace (first + d + w) with hi by lia. }
    assert (StrictWeakOrder comp → sorted_runs comp sz L →
            nondecreasing comp (slice (first + d) (first + d + sz) mem))
      as Hrun1.
    { intros Hswo HrunsL.
      rewrite <-(take_drop_slice first last) by lia. rewrite <-HeqL, <-Hev.
      apply HrunsL. }
    unfold write_at. rewrite Hlm.
    split; [|split; [|split]].
    + rewrite app_assoc, take_app_length' by (rewrite length_app; lia).
      by rewrite Hperm, Hpm, take_take_drop.
    + rewrite app_assoc, drop_app_length' by (rewrite length_app; lia).
      by rewrite <-!(drop_drop _ w d), Hrest.
    + intros Hswo HrunsL k Hk. destruct (decide (k = j)) as [->|Hkj].
      * rewrite <-Hdj. rewrite drop_app_length' by done.
        assert (take (2 * sz) (merged ++ drop (d + w) Bc) = merged) as ->.
        { destruct Hhi3 as [Hhi3|Hhi3].
          - rewrite (drop_ge Bc) by lia. rewrite app_nil_r.
            apply take_ge. lia.
          - apply take_app_length'. lia. }
        subst merged. apply merge_lists_nondecreasing; [done|..].
        -- rewrite <-(take_drop_slice first last) by lia. rewrite <-HeqL, <-Hev.
           apply HrunsL.
        -- replace hi with (first + (d + sz) + (hi - (first + d + sz))) at 1
             by lia.
           replace (first + d + sz) with (first + (d + sz)) by lia.
           rewrite <-(take_drop_slice first last) by lia. rewrite <-HeqL.
           replace (hi - (first + (d + sz))) with
             (Nat.min (hi - (first + (d + sz))) sz) by lia.
           rewrite <-take_take. apply nondecreasing_take.
           rewrite <-Hod. apply HrunsL.
      * specialize (Hblocks k ltac:(lia)).
        rewrite app_assoc.
        rewrite <-(block_of_prefix (k * (2 * sz)) (2 * sz) d) by lia.
        rewrite <-app_assoc, take_app_length' by done.
        rewrite block_of_prefix by lia.
        apply Hruns; [done..|lia].
    + intros Hswo HrunsL key.
      rewrite app_assoc, take_app_length' by (rewrite length_app; lia).
      rewrite <-(take_take_drop L d w), !filter_app.
      rewrite (Hkept Hswo HrunsL key). f_equal.
      subst merged. rewrite merge_lists_stable; [|done|by apply Hrun1].
      rewrite slice_slice_app by lia. subst L.
      rewrite take_drop_slice by lia.
      by replace (first + d + w) with hi by lia.
  - exists 0. cbn [fst snd]. rewrite Nat.mul_0_l. simpl.
    split; [lia|]. split; [by left|]. split; [done|].
    split; [by rewrite !take_0|].
    split; [by subst B0|]. split; [intros _ _ k Hk; lia|]. done.
  - simpl. lia.
  - cbv beta iota in Hc. cbn [fst snd] in *. apply Nat.ltb_ge in Hc.
    exists b. rewrite Hw. subst lo.
    assert (∀ k, k * (2 * sz) < j * (2 * sz) → k < j) as Hblocks
      by (intros; nia).
    assert (j * (2 * sz) = j * (2 * sz)) as Hdj' by done.
    remember (j * (2 * sz)) as d eqn:Hdj in Hdj' at 1, Hperm, Hrest, Hc,
      Hblocks, Hkept.
    remember (slice aux (aux + dim) b) as Bc eqn:HeqBc.
    pose proof Hout as [Hlenb _].
    assert (length Bc = dim) as HBc by (subst Bc; rewrite length_slice; lia).
    destruct (decide (dim ≤ d)) as [Hdd|Hdd].
    + exists dim. replace (Nat.min d dim) with dim in Hperm, Hrest by lia.
      split; [done|]. split; [done|]. split.
      { left. split; [done|]. destruct Hlast as [->|(j' & -> & Hj')].
        - left. lia.
        - right. exists j'. lia. }
      rewrite !take_ge in Hperm by lia.
      rewrite (drop_ge B0) by lia. rewrite app_nil_r, (take_ge L) by lia.
      split; [done|]. split; [by rewrite !drop_ge by lia|].
      split.
      * intros Hswo HrunsL k Hk. apply Hruns; [done..|]. apply Hblocks. lia.
      * intros Hswo HrunsL key. specialize (Hkept Hswo HrunsL key).
        replace (Nat.min d dim) with dim in Hkept by lia.
        by rewrite !take_ge in Hkept by lia.
    + exists d. replace (Nat.min d dim) with d in Hperm, Hrest by lia.
      split; [done|]. split; [done|].
      split; [right; exists j; lia|].
      split; [|split; [done|split]].
      * by rewrite <-(take_drop d Bc) at 1; rewrite Hperm, Hrest.
      * intros Hswo HrunsL k Hk. apply Hruns; [done..|]. by apply Hblocks.
      * intros Hswo HrunsL key. specialize (Hkept Hswo HrunsL key).
        replace (Nat.min d dim) with d in Hkept by lia.
        rewrite <-(take_drop d Bc) at 1.
        by rewrite !filter_app, Hkept, Hrest.
Qed.

(** The copy back makes the range a copy of the buffer. *)
Lemma std_copy_back first last aux b m :
  first ≤ last ≤ length m → aux + (last - first) ≤ length b →
  ∃ m', std_copy aux (aux + (last - first)) first b m = Some m' ∧
    same_outside first last m m' ∧
    slice first last m' = slice aux (aux + (last - first)) b.
Proof.
  intros Hb Haux. unfold std_copy. rewrite decide_True by lia.
  eexists. split; [done|].
  assert (length (slice aux (aux + (last - first)) b) = last - first) as Hl
    by (rewrite length_slice; lia).
  pose proof (write_at_same_outside first
                (slice aux (aux + (last - first)) b) m) as Hwo.
  pose proof (slice_write_at first
                (slice aux (aux + (last - first)) b) m) as Hsl.
  rewrite Hl in Hwo, Hsl.
  replace (first + (last - first)) with last in Hwo, Hsl by lia.
  split; [apply Hwo|apply Hsl]; lia.
Qed.

Lemma sorted_runs_whole sz l :
  length l ≤ sz → sorted_runs comp sz l → nondecreasing comp l.
Proof.
  intros Hl Hruns. specialize (Hruns 0).
  by rewrite Nat.mul_0_l, drop_0, take_ge in Hruns.
Qed.

(** A pass that starts with the buffer a copy of the range keeps the
    elements of the range and doubles the length of its sorted runs: the
    run left over, if any, is in the buffer already. *)
Lemma merge_sort_pass_mirror first last aux sz mem buf :
  0 < sz → first ≤ last ≤ length mem → aux + (last - first) ≤ length buf →
  slice aux (aux + (last - first)) buf = slice first last mem →
  ∃ b, merge_sort_pass comp first last aux sz mem buf = Some b ∧
    same_outside aux (aux + (last - first)) buf b ∧
    slice aux (aux + (last - first)) b ≡ₚ slice first last mem ∧
    (StrictWeakOrder comp → sorted_runs comp sz (slice first last mem) →
     sorted_runs comp (2 * sz) (slice aux (aux + (last - first)) b) ∧
     order_of_equals_kept comp (slice first last mem)
       (slice aux (aux + (last - first)) b)).
Proof.
  intros Hsz Hb Haux Hmirror.
  destruct (merge_sort_pass_runs first last aux sz mem buf Hsz Hb Haux)
    as (b & c & -> & Hout & Hc & Hperm & Hrest & Hruns & Hkept).
  exists b. split; [done|]. split; [done|].
  rewrite Hmirror in Hperm, Hrest, Hkept. rewrite take_drop in Hperm, Hkept.
  split; [done|]. intros Hswo HrunsL. split; [|by apply Hkept]. intros k.
  pose proof Hout as [Hlenb _].
  remember (slice aux (aux + (last - first)) b) as B eqn:HeqB.
  remember (slice first last mem) as L eqn:HeqL.
  assert (length B = last - first) as HB by (subst B; rewrite length_slice; lia).
  assert (length L = last - first) as HL by (subst L; rewrite length_slice; lia).
  destruct (decide (k * (2 * sz) < c)) as [Hk|Hk]; [by apply Hruns|].
  destruct Hc as [[-> _]|(j & Hcj & Hcd)].
  { rewrite drop_ge by lia. apply nondecreasing_take, nondecreasing_nil. }
  destruct (decide (k = j)) as [->|Hkj].
  - rewrite <-Hcj, Hrest.
    rewrite take_ge by (rewrite length_drop; lia).
    rewrite <-(take_ge (drop c L) sz) by (rewrite length_drop; lia).
    replace c with ((2 * j) * sz) by lia. apply HrunsL.
  - rewrite drop_ge by nia. apply nondecreasing_take, nondecreasing_nil.
Qed.

(** The passes from a state in which the buffer is a copy of the range. *)
Lemma merge_sort_passes_mirror first last aux fuel sz mem buf :
  0 < sz → first ≤ last ≤ length mem → aux + (last - first) ≤ length buf →
  last - first - sz ≤ fuel →
  slice aux (aux + (last - first)) buf = slice first last mem →
  ∃ sz' mem' buf',
    while fuel
      (λ '(sz, _, _), sz <? last - first)
      (λ '(sz, m, b),
         b' ← merge_sort_pass comp first last aux sz m b;
         m' ← std_copy aux (aux + (last - first)) first b' m;
         Some (sz * 2, m', b'))
      (sz, mem, buf) = Some (sz', mem', buf') ∧
    same_outside first last mem mem' ∧
    same_outside aux (aux + (last - first)) buf buf' ∧
    slice first last mem' ≡ₚ slice first last mem ∧
    slice aux (aux + (last - first)) buf' = slice first last mem' ∧
    (StrictWeakOrder comp → sorted_runs comp sz (slice first last mem) →
     nondecreasing comp (slice first last mem') ∧
     order_of_equals_kept comp (slice first last mem)
       (slice first last mem')).
Proof.
  intros Hsz Hb Haux Hfuel Hmirror.
  set (Inv := λ s : nat * list A * list A,
    0 < s.1.1 ∧ same_outside first last mem s.1.2 ∧
    same_outside aux (aux + (last - first)) buf s.2 ∧
    slice first last s.1.2 ≡ₚ slice first last mem ∧
    slice aux (aux + (last - first)) s.2 = slice first last s.1.2 ∧
    (StrictWeakOrder comp → sorted_runs comp sz (slice first last mem) →
     sorted_runs comp s.1.1 (slice first last s.1.2) ∧
     order_of_equals_kept comp (slice first last mem)
       (slice first last s.1.2))).
  match goal with
  | |- ∃ x y z, while ?f0 ?c0 ?b0 ?s0 = _ ∧ _ =>
      destruct (while_rule Inv (λ s, last - first - s.1.1) c0 b0)
        with (fuel := f0) (s := s0)
        as ([[sz' m] b] & Hw & (Hsz' & Hom & Hob & Hperm & Hmir & Hruns) & Hc)
  end.
  - intros [[sz' m] b] (Hsz' & Hom & Hob & Hperm & Hmir & Hruns) Hc.
    cbv beta iota zeta in Hc |- *. cbn [fst snd] in *.
    apply Nat.ltb_lt in Hc.
    pose proof Hom as [Hlm _]. pose proof Hob as [Hlb _].
    destruct (merge_sort_pass_mirror first last aux sz' m b)
      as (b' & -> & Hob' & Hperm' & Hruns'); [lia..|done|].
    pose proof Hob' as [Hlb' _]. loop_step.
    destruct (std_copy_back first last aux b' m) as (m' & -> & Hom' & Hs');
      [lia..|].
    loop_step. eexists. split; [done|]. split; [|cbn [fst snd]; lia].
    unfold Inv. cbn [fst snd]. split; [lia|].
    split; [by eapply same_outside_trans|].
    split; [by eapply same_outside_trans|].
    rewrite Hs'. split; [by rewrite Hperm'|]. split; [done|].
    intros Hswo HrunsL. replace (sz' * 2) with (2 * sz') by lia.
    destruct (Hruns Hswo HrunsL) as [Hr Hk].
    destruct (Hruns' Hswo Hr) as [Hr' Hk'].
    split; [done|]. intros key. by rewrite Hk', Hk.
  - unfold Inv. cbn [fst snd]. split; [done|]. split; [done|].
    split; [done|]. split; [done|]. split; [done|]. by auto.
  - cbn [fst snd]. lia.
  - cbv beta iota in Hc. cbn [fst snd] in *. apply Nat.ltb_ge in Hc.
    exists sz', m, b. split; [done|]. split; [done|]. split; [done|].
    split; [done|]. split; [done|].
    intros Hswo HrunsL. destruct (Hruns Hswo HrunsL) as [Hr Hk].
    split; [|done]. apply (sorted_runs_whole sz'); [|done].
    pose proof Hom as [Hlm _]. rewrite length_slice; lia.
Qed.

Lemma while_step {St : Type} fuel (c : St → bool) (b : St → option St) s :
  c s = true → 0 < fuel →
  while fuel c b s = s' ← b s; while (fuel - 1) c b s'.
Proof.
  intros Hc Hf. destruct fuel as [|fuel]; [lia|].
  rewrite while_true by done. by rewrite Nat.sub_1_r.
Qed.

(** What the first loop leaves in the first [k] segments is a permutation
    of what they held. *)
Lemma segments_prefix_Permutation (l l' : list A) :
  length l' = length l →
  (∀ k, take 16 (drop (k * 16) l') = isort comp (take 16 (drop (k * 16) l))) →
  ∀ k, take (k * 16) l' ≡ₚ take (k * 16) l.
Proof.
  intros Hlen Hblocks k. induction k as [|k IH]; [by rewrite !take_0|].
  replace (S k * 16) with (k * 16 + 16) by lia.
  by rewrite <-!take_take_drop, IH, Hblocks, isort_Permutation.
Qed.

Lemma segments_prefix_stable (l l' : list A) :
  StrictWeakOrder comp →
  (∀ k, take 16 (drop (k * 16) l') = isort comp (take 16 (drop (k * 16) l))) →
  ∀ k, order_of_equals_kept comp (take (k * 16) l) (take (k * 16) l').
Proof.
  intros Hswo Hblocks k key. induction k as [|k IH]; [by rewrite !take_0|].
  replace (S k * 16) with (k * 16 + 16) by lia.
  rewrite <-!take_take_drop, !filter_app, IH, Hblocks.
  by rewrite (isort_stable comp Hswo _ key).
Qed.

(** [merge_sort] on more than [cutoff] elements.  [c] is the offset up to
    which the first pass, with runs of [cutoff] elements, finds a partner
    for every run.  The range ends as a rearrangement of its elements
    before [c] and of what the buffer held from [c] on when the call
    began, and the buffer as a copy of the range. *)
Lemma merge_sort_large first last aux mem buf :
  first ≤ last ≤ length mem → aux + (last - first) ≤ length buf →
  16 < last - first →
  ∃ mem' buf' c,
    merge_sort comp first last aux mem buf = Some (mem', buf') ∧
    same_outside first last mem mem' ∧
    same_outside aux (aux + (last - first)) buf buf' ∧
    (c = last - first ∧ (∃ j, j * 32 + 16 < last - first ≤ S j * 32)
     ∨ ∃ j, c = j * 32 ∧ c < last - first ≤ c + 16) ∧
    slice first last mem'
      ≡ₚ take c (slice first last mem)
          ++ drop c (slice aux (aux + (last - first)) buf) ∧
    slice aux (aux + (last - first)) buf' = slice first last mem' ∧
    (StrictWeakOrder comp →
     nondecreasing comp (drop c (slice aux (aux + (last - first)) buf)) →
     nondecreasing comp (slice first last mem') ∧
     order_of_equals_kept comp
       (take c (slice first last mem)
        ++ drop c (slice aux (aux + (last - first)) buf))
       (slice first last mem')).
Proof.
  intros Hb Haux Hdim. unfold merge_sort.
  destruct (merge_sort_segments_exact first last mem Hb)
    as (m1 & -> & Hfr1 & Hblocks).
  pose proof Hfr1 as (Hl1 & _ & _).
  pose proof (rearranged_within_slice first last mem m1 Hb Hfr1)
    as (_ & _ & Hperm1).
  loop_step.
  rewrite while_step; [|apply Nat.ltb_lt; unfold cutoff; lia|lia].
  cbv beta iota zeta. unfold cutoff.
  destruct (merge_sort_pass_runs first last aux 16 m1 buf)
    as (b1 & c & -> & Hob1 & Hc & HpermB & HrestB & HrunsB & HkeptB);
    [lia..|].
  pose proof Hob1 as [Hlb1 _]. loop_step.
  destruct (std_copy_back first last aux b1 m1) as (m2 & -> & Hom2 & Hs2);
    [lia..|].
  pose proof Hom2 as [Hl2 _]. loop_step.
  destruct (merge_sort_passes_mirror first last aux (last - first - 1)
              (16 * 2) m2 b1)
    as (sz' & mem' & buf' & -> & Hom' & Hob' & Hperm' & Hmir' & Hsorted);
    [lia..|done|].
  loop_step. exists mem', buf', c. split; [done|].
  split.
  { eapply same_outside_trans; [by apply rearranged_same_outside|].
    by eapply same_outside_trans. }
  split; [by eapply same_outside_trans|].
  remember (slice first last mem) as L eqn:HeqL.
  remember (slice first last m1) as L1 eqn:HeqL1.
  remember (slice aux (aux + (last - first)) buf) as B0 eqn:HeqB0.
  assert (length L1 = length L) as HLL.
  { subst L L1. rewrite !length_slice; lia. }
  assert (take c L1 ≡ₚ take c L) as Hprefix.
  { destruct Hc as [[-> _]|(j & -> & _)].
    - rewrite !take_ge; [done|subst L L1; rewrite length_slice; lia..].
    - replace (j * (2 * 16)) with ((2 * j) * 16) by lia.
      by apply segments_prefix_Permutation. }
  split.
  { destruct Hc as [[-> [?|(j & Hj)]]|(j & -> & Hj)]; [lia| |].
    - left. split; [done|]. exists j. lia.
    - right. exists j. lia. }
  split; [by rewrite Hperm', Hs2, HpermB, Hprefix|].
  split; [done|].
  intros Hswo Htail.
  assert (sorted_runs comp 16 L1) as Hruns1.
  { intros k'. rewrite Hblocks. by apply isort_nondecreasing. }
  assert (order_of_equals_kept comp (take c L) (take c L1)) as Hkprefix.
  { destruct Hc as [[-> _]|(j & -> & _)].
    - assert (length L = last - first) as HlenL
        by (subst L; rewrite length_slice; lia).
      rewrite !take_ge by lia.
      rewrite <-(take_ge L ((last - first) * 16)),
              <-(take_ge L1 ((last - first) * 16)) by lia.
      by apply segments_prefix_stable.
    - replace (j * (2 * 16)) with ((2 * j) * 16) by lia.
      by apply segments_prefix_stable. }
  enough (sorted_runs comp (16 * 2) (slice first last m2)) as Hruns2.
  { destruct (Hsorted Hswo Hruns2) as [Hnd Hk]. split; [done|].
    intros key. rewrite Hk, Hs2, (HkeptB Hswo Hruns1 key), !filter_app.
    by rewrite Hkprefix. }
  rewrite Hs2. intros k.
  remember (slice aux (aux + (last - first)) b1) as B1 eqn:HeqB1.
  assert (length B1 = last - first) as HB1
    by (subst B1; rewrite length_slice; lia).
  assert (length B0 = last - first) as HB0
    by (subst B0; rewrite length_slice; lia).
  replace (16 * 2) with (2 * 16) by lia.
  destruct (decide (k * (2 * 16) < c)) as [Hk|Hk]; [by apply HrunsB|].
  destruct Hc as [[-> _]|(j & Hcj & Hcd)].
  { rewrite drop_ge by lia. apply nondecreasing_take, nondecreasing_nil. }
  destruct (decide (k = j)) as [->|Hkj].
  - rewrite <-Hcj, HrestB. by apply nondecreasing_take.
  - rewrite drop_ge by lia. apply nondecreasing_take, nondecreasing_nil.
Qed.
End MergeSortRuns.

Section StableUnique.
Context {A : Type} (comp : A → A → bool) (Hswo : StrictWeakOrder comp).
Implicit Types l : list A.

Lemma equiv_filter_head x l :
  filter (λ y, comp x y = false ∧ comp y x = false) (x :: l)
  = x :: filter (λ y, comp x y = false ∧ comp y x = false) l.
Proof using Hswo.
  rewrite filter_cons, decide_True; [done|].
  by rewrite (swo_irrefl comp Hswo).
Qed.

(** Two sorted lists in which equivalent elements come in the same order
    are the same list: a stable sort has one possible result. *)
Lemma stable_sorted_unique l1 l2 :
  nondecreasing comp l1 → nondecreasing comp l2 →
  order_of_equals_kept comp l1 l2 → l1 = l2.
Proof using Hswo.
  rewrite !nondecreasing_StronglySorted. intros Hs1. revert l2.
  induction Hs1 as [|x l1 Hs1 IH Hx]; intros l2 Hs2 Hkept.
  - destruct l2 as [|y l2]; [done|].
    specialize (Hkept y). by rewrite equiv_filter_head in Hkept.
  - destruct l2 as [|y l2].
    { specialize (Hkept x). by rewrite equiv_filter_head in Hkept. }
    apply StronglySorted_cons in Hs2 as [Hy Hs2].
    rewrite Forall_forall in Hx, Hy.
    assert (x ∈ y :: l2) as Hxin.
    { pose proof (Hkept x) as Hk. rewrite equiv_filter_head in Hk.
      assert (x ∈ filter (λ z, comp x z = false ∧ comp z x = false) (y :: l2))
        as Hin by (rewrite Hk; left).
      by apply list_elem_of_filter in Hin as [_ ?]. }
    assert (y ∈ x :: l1) as Hyin.
    { pose proof (Hkept y) as Hk. rewrite equiv_filter_head in Hk.
      assert (y ∈ filter (λ z, comp y z = false ∧ comp z y = false) (x :: l1))
        as Hin by (rewrite <-Hk; left).
      by apply list_elem_of_filter in Hin as [_ ?]. }
    assert (comp x y = false) as Hxy.
    { apply elem_of_cons in Hxin as [->|Hxin];
        [apply (swo_irrefl comp Hswo)|by apply Hy]. }
    assert (comp y x = false) as Hyx.
    { apply elem_of_cons in Hyin as [->|Hyin];
        [apply (swo_irrefl comp Hswo)|by apply Hx]. }
    assert (x = y) as <-.
    { pose proof (Hkept x) as Hk. rewrite equiv_filter_head in Hk.
      rewrite filter_cons, decide_True in Hk by done. by injection Hk. }
    f_equal. apply IH; [done|]. intros k. specialize (Hkept k).
    rewrite !filter_cons in Hkept. case_decide; [|done]. by injection Hkept.
Qed.
End StableUnique.

Section Agreement.
Context {A : Type} (comp : A → A → bool).
Implicit Types m l : list A.

(** A storage is determined by what it holds in the range and outside. *)
Lemma same_outside_eq first last m m1 m2 :
  first ≤ last ≤ length m →
  same_outside first last m m1 → same_outside first last m m2 →
  slice first last m1 = slice first last m2 → m1 = m2.
Proof.
  intros Hb [Hl1 Ho1] [Hl2 Ho2] Hs. apply list_eq. intros p.
  destruct (decide (first ≤ p < last)) as [Hp|Hp].
  - apply (f_equal (λ l, l !! (p - first))) in Hs.
    rewrite !lookup_slice_full, !decide_True in Hs by lia.
    by replace (first + (p - first)) with p in Hs by lia.
  - rewrite Ho1, Ho2 by lia. done.
Qed.

Lemma order_of_equals_kept_refl l : order_of_equals_kept comp l l.
Proof. done. Qed.

(** When the ordering is total, the elements equivalent to [k] are copies
    of [k], and a permutation keeps their order. *)
Lemma Permutation_kept_total l l' :
  StrictWeakOrder comp →
  (∀ x y, comp x y = false → comp y x = false → x = y) →
  l' ≡ₚ l → order_of_equals_kept comp l l'.
Proof.
  intros Hswo Htot Hp k.
  assert (∀ l0, filter (λ y, comp k y = false ∧ comp y k = false) l0
                = replicate
                    (length (filter (λ y, comp k y = false ∧ comp y k = false) l0))
                    k) as Hrep.
  { intros l0. induction l0 as [|z l0 IH]; [done|].
    rewrite filter_cons. case_decide as Hz; [|done].
    simpl. rewrite <-IH. f_equal. destruct Hz. symmetry. by apply Htot. }
  rewrite (Hrep l'), (Hrep l). by rewrite Hp.
Qed.
End Agreement.

(** The length of the run left over by the first pass of merges. *)
Lemma unpaired_remainder n j :
  j * 32 < n ≤ j * 32 + 16 → n mod 32 = n - j * 32.
Proof. intros Hj. symmetry. apply (Nat.mod_unique n 32 j); lia. Qed.

(** ** Shell sort pass by pass *)

Section HSortOne.
Context {A : Type} (comp : A → A → bool).
Implicit Types pre acc post seg : list A.

(** With gap 1 the inner loop of [h_sort] goes on comparing after the
    first element that is not smaller; on a sorted prefix these further
    comparisons swap nothing, and the loop refines [sift] as the inner
    loop of [insertion_sort] does. *)
Lemma h_sort_inner_one_loop pre acc x post fuel :
  length acc ≤ fuel →
  StronglySorted (λ a b, comp a b = false) acc →
  while fuel
    (λ '(j, _), 1 <=? j - length pre)
    (λ '(j, m),
       let k := j - 1 in
       x ← m !! j; y ← m !! k;
       m' ← (if comp x y then iter_swap j k m else Some m);
       Some (j - 1, m'))
    (length pre + length acc, pre ++ reverse acc ++ x :: post)
  = Some (length pre, pre ++ reverse (sift comp x acc) ++ post).
Proof.
  revert x post fuel. induction acc as [|y acc IH]; intros x post fuel Hf Hs.
  - rewrite while_false; [by rewrite Nat.add_0_r|].
    cbv beta iota. apply Nat.leb_gt. simpl. lia.
  - destruct fuel as [|fuel]; [simpl in Hf; lia|].
    rewrite while_true by (cbv beta iota; apply Nat.leb_le; simpl; lia).
    apply StronglySorted_cons in Hs as [Hy Hs].
    loop_step. simpl length. rewrite Nat.add_succ_r.
    replace (S (length pre + length acc) - 1) with (length pre + length acc)
      by lia.
    rewrite reverse_cons, <-(app_assoc (reverse acc)), app_assoc. simpl.
    replace (length pre + length acc) with (length (pre ++ reverse acc))
      by (by rewrite length_app, length_reverse).
    rewrite lookup_second, list_lookup_middle by done. loop_step.
    destruct (comp x y) eqn:Hxy.
    + rewrite iter_swap_adjacent. loop_step.
      rewrite length_app, length_reverse, <-app_assoc.
      rewrite IH by (done || simpl in Hf; lia).
      by rewrite reverse_cons, <-!app_assoc.
    + loop_step. rewrite length_app, length_reverse, <-app_assoc.
      rewrite IH by (done || simpl in Hf; lia).
      assert (sift comp y acc = y :: acc) as ->.
      { destruct acc as [|z acc']; [done|]. simpl.
        apply Forall_cons in Hy as [-> _]. done. }
      by rewrite !reverse_cons, <-!app_assoc.
Qed.

Lemma h_sort_inner_one pre acc x post :
  StronglySorted (λ a b, comp a b = false) acc →
  h_sort_inner comp (length pre) 1 (length pre + length acc)
    (pre ++ reverse acc ++ x :: post)
  = Some (pre ++ reverse (sift comp x acc) ++ post).
Proof.
  intros Hs. unfold h_sort_inner.
  rewrite (h_sort_inner_one_loop pre acc x post) by (done || lia). done.
Qed.

Lemma foldl_sift_sorted (Hswo : StrictWeakOrder comp) l :
  StronglySorted (λ a b, comp a b = false)
    (foldl (λ acc x, sift comp x acc) [] l).
Proof.
  induction l as [|x l IH] using rev_ind; [constructor|].
  rewrite foldl_snoc. by apply sift_sorted.
Qed.

Lemma h_sort_one_app pre seg post :
  StrictWeakOrder comp →
  h_sort comp (length pre) (length pre + length seg) 1 (pre ++ seg ++ post)
  = Some (pre ++ isort comp seg ++ post).
Proof.
  intros Hswo. unfold h_sort.
  destruct seg as [|x0 seg0].
  { rewrite while_false; [done|]. cbv beta iota. apply Nat.ltb_ge. simpl. lia. }
  remember (x0 :: seg0) as seg eqn:Hseg0.
  set (Inv := λ s : nat * list A, ∃ done todo,
         seg = done ++ todo ∧ s.1 = length pre + length done ∧
         s.2 = pre ++ reverse (foldl (λ acc x, sift comp x acc) [] done)
                   ++ todo ++ post).
  set (mu := λ s : nat * list A, length pre + length seg - s.1).
  match goal with
  | |- snd <$> while ?f0 ?c0 ?b0 ?s0 = _ =>
      destruct (while_rule Inv mu c0 b0) with (fuel := f0) (s := s0)
        as ([i m] & -> & (done & todo & Hseg & Hi & Hm) & Hc)
  end.
  - intros [i m] (done & todo & -> & Hi & Hm) Hc. simpl in *. subst i m.
    destruct todo as [|x todo].
    { rewrite app_nil_r in Hc. apply Nat.ltb_lt in Hc. lia. }
    pose proof (h_sort_inner_one pre (foldl (λ acc x, sift comp x acc) [] done)
                  x (todo ++ post) (foldl_sift_sorted Hswo done)) as Hib.
    rewrite length_foldl_sift in Hib.
    eexists. split; [simpl; by rewrite Hib|]. split.
    + exists (done ++ [x]), todo. rewrite <-app_assoc. split; [done|].
      simpl. rewrite foldl_snoc. split; [|done].
      rewrite length_app. simpl. lia.
    + unfold mu. simpl. rewrite !length_app. simpl. lia.
  - exists [x0], seg0. subst seg. split; [done|]. split; [simpl; lia|done].
  - unfold mu. simpl. lia.
  - simpl in *. apply Nat.ltb_ge in Hc.
    assert (todo = []) as ->.
    { apply (f_equal length) in Hseg. rewrite length_app in Hseg.
      destruct todo; [done|simpl in *; lia]. }
    rewrite app_nil_r in Hseg. by subst.
Qed.

Lemma h_sort_one_spec first last (mem : list A) :
  StrictWeakOrder comp → first ≤ last ≤ length mem →
  h_sort comp first last 1 mem
  = Some (take first mem ++ isort comp (slice first last mem) ++ drop last mem).
Proof.
  intros Hswo Hb.
  pose proof (h_sort_one_app (take first mem) (slice first last mem)
                (drop last mem) Hswo) as Happ.
  rewrite <-(slice_split first last mem Hb) in Happ.
  rewrite (length_slice first last mem Hb), length_take in Happ.
  rewrite <-Happ. f_equal; lia.
Qed.
End HSortOne.

Lemma knuth_term_pos i : i < knuth_term i.
Proof. induction i as [|i IH]; simpl; lia. Qed.

Section ShellPasses.
Context {A : Type} (comp : A → A → bool).

Lemma shell_sort_loop_passes first last i fuel (m : list A) :
  i < fuel →
  while fuel
    (λ '(h, _), 0 <? h)
    (λ '(h, m), m' ← h_sort comp first last h m; Some (h / 3, m'))
    (knuth_term i, m)
  = m' ← gap_passes comp first last i m; Some (0, m').
Proof.
  revert fuel m. induction i as [|i IH]; intros fuel m Hf.
  - destruct fuel as [|fuel]; [lia|].
    rewrite while_true by done. loop_step.
    change (knuth_term 0) with 1. cbn [gap_passes knuth_term].
    destruct (h_sort comp first last 1 m) as [m'|]; [|done].
    loop_step. by rewrite while_false.
  - destruct fuel as [|fuel]; [lia|].
    pose proof (knuth_term_pos (S i)).
    rewrite while_true by (cbv beta iota; apply Nat.ltb_lt; lia).
    loop_step. cbn [gap_passes].
    destruct (h_sort comp first last (knuth_term (S i)) m) as [m'|]; [|done].
    loop_step. rewrite knuth_term_div3. apply IH. lia.
Qed.
End ShellPasses.

Lemma div3_le_1 (n : nat) : n / 3 ≤ 1 ↔ n < 6.
Proof.
  pose proof (Nat.div_mod_eq n 3) as Hn.
  pose proof (Nat.mod_upper_bound n 3 ltac:(lia)). lia.
Qed.

Lemma knuth_seq_below_6 (n : nat) : n < 6 → knuth_seq n = 1.
Proof.
  intros Hn%div3_le_1.
  destruct (knuth_seq_spec n) as (i & Hi & Hge & Hlt). rewrite Hi.
  destruct i as [|i]; [done|].
  specialize (Hlt 0 ltac:(lia)). change (knuth_term 0) with 1 in Hlt. lia.
Qed.

Lemma seq_nondecreasing a n : nondecreasing Nat.ltb (seq a n).
Proof.
  intros i j x y Hij [-> _]%lookup_seq [-> _]%lookup_seq.
  apply Nat.ltb_ge. lia.
Qed.

(** * The specification, claim by claim *)

Local Open Scope char_scope.

(** C2, as stated, fails: for [n = 9] the bound [n/3] is 3 and the only
    term below it is 1, but [knuth_seq] returns 4. *)
Lemma knuth_seq_not_largest_below :
  1 < 9 ∧ knuth_seq 9 = 4 ∧ ¬ largest_term_below (9 / 3) (knuth_seq 9).
Proof.
  split; [lia|]. split; [reflexivity|].
  intros (_ & Hlt & _). vm_compute in Hlt. lia.
Qed.

(** The header documents [knuth_seq] as returning the largest term below
    [n]; the loop stops earlier than that as well, at the first term that
    is not below [n/3]. *)
Example knuth_seq_5 : knuth_seq 5 = 1 ∧ is_knuth_term 4 ∧ 4 < 5.
Proof. split; [reflexivity|]. split; [by exists 1|lia]. Qed.

(** C2, amended.  For every [n > 1], [knuth_seq n] is the smallest term of
    the sequence k0 = 1, k_{i+1} = 3 k_i + 1 that is greater than or equal
    to [n/3] (integer division); it is strictly less than [n]. *)
Theorem knuth_seq_smallest_from (n : nat) :
  1 < n → smallest_term_from (n / 3) (knuth_seq n) ∧ knuth_seq n < n.
Proof.
  intros Hn. split; [|by apply knuth_seq_lt].
  destruct (knuth_seq_spec n) as (i & Hi & Hge & Hlt).
  rewrite Hi. split_and!; [by exists i|done|].
  intros k [j <-] Hk. apply knuth_term_mono.
  destruct (decide (i ≤ j)) as [|Hij]; [done|].
  specialize (Hlt j ltac:(lia)). lia.
Qed.

Lemma knuth_seq_smallest_from_witness :
  1 < 9 ∧ smallest_term_from (9 / 3) (knuth_seq 9) ∧ knuth_seq 9 < 9.
Proof. split; [lia|]. apply (knuth_seq_smallest_from 9). lia. Defined.

(** C3.  For every range [first, last) of a finite sequence and every
    strict weak ordering [comp], [insertion_sort] returns, and afterwards
    the range is non-decreasing under [comp] and holds a permutation of
    what it held; and insertion sort of [5,3,4,1,2] under [<] gives
    [1,2,3,4,5]. *)
Theorem insertion_sort_correct :
  (∀ (A : Type) (comp : A → A → bool) (first last : nat) (mem : list A),
     StrictWeakOrder comp → first ≤ last ≤ length mem →
     ∃ mem', insertion_sort comp first last mem = Some mem' ∧
       nondecreasing comp (slice first last mem') ∧
       slice first last mem' ≡ₚ slice first last mem)
  ∧ insertion_sort Nat.ltb 0 5 [5; 3; 4; 1; 2] = Some [1; 2; 3; 4; 5].
Proof.
  split; [|reflexivity].
  intros A comp first last mem Hswo Hb.
  destruct (insertion_sort_rearranged comp first last mem Hb)
    as (mem' & -> & _ & Hs).
  exists mem'. split; [done|]. rewrite Hs.
  split; [by apply isort_nondecreasing|apply isort_Permutation].
Qed.

Lemma insertion_sort_correct_witness :
  StrictWeakOrder Nat.ltb ∧ 1 ≤ 4 ≤ length [9; 5; 3; 4; 1; 2] ∧
  ∃ mem', insertion_sort Nat.ltb 1 4 [9; 5; 3; 4; 1; 2] = Some mem' ∧
    nondecreasing Nat.ltb (slice 1 4 mem') ∧
    slice 1 4 mem' ≡ₚ slice 1 4 [9; 5; 3; 4; 1; 2].
Proof.
  split; [exact ltb_strict_weak_order|]. split; [simpl; lia|].
  apply (proj1 insertion_sort_correct nat Nat.ltb 1 4 [9; 5; 3; 4; 1; 2]).
  - exact ltb_strict_weak_order.
  - simpl. lia.
Defined.

(** C4.  For every range [first, last) of a finite sequence and every
    strict weak ordering [comp], [shell_sort] returns, and afterwards the
    range is non-decreasing under [comp] and holds a permutation of what it
    held; and shell sort of [9,8,7,6,5,4,3,2,1] under [<] gives
    [1,2,3,4,5,6,7,8,9]. *)
Theorem shell_sort_correct :
  (∀ (A : Type) (comp : A → A → bool) (first last : nat) (mem : list A),
     StrictWeakOrder comp → first ≤ last ≤ length mem →
     ∃ mem', shell_sort comp first last mem = Some mem' ∧
       nondecreasing comp (slice first last mem') ∧
       slice first last mem' ≡ₚ slice first last mem)
  ∧ shell_sort Nat.ltb 0 9 [9; 8; 7; 6; 5; 4; 3; 2; 1]
    = Some [1; 2; 3; 4; 5; 6; 7; 8; 9].
Proof.
  split; [|reflexivity].
  intros A comp first last mem Hswo Hb.
  destruct (shell_sort_spec comp first last mem Hb) as (mem' & -> & Hfr & Hnd).
  exists mem'. split; [done|]. split; [by apply Hnd|].
  by apply rearranged_within_slice.
Qed.

Lemma shell_sort_correct_witness :
  StrictWeakOrder Nat.ltb ∧ 1 ≤ 9 ≤ length [0; 8; 7; 6; 5; 4; 3; 2; 1; 9] ∧
  ∃ mem', shell_sort Nat.ltb 1 9 [0; 8; 7; 6; 5; 4; 3; 2; 1; 9] = Some mem' ∧
    nondecreasing Nat.ltb (slice 1 9 mem') ∧
    slice 1 9 mem' ≡ₚ slice 1 9 [0; 8; 7; 6; 5; 4; 3; 2; 1; 9].
Proof.
  split; [exact ltb_strict_weak_order|]. split; [simpl; lia|].
  apply (proj1 shell_sort_correct nat Nat.ltb 1 9
           [0; 8; 7; 6; 5; 4; 3; 2; 1; 9]).
  - exact ltb_strict_weak_order.
  - simpl. lia.
Defined.

(** C7.  For every range of exactly 16 elements (the insertion sort
    cutoff) and every range of 17 elements, every strict weak ordering
    [comp] and every auxiliary buffer with room for the range,
    [merge_sort] returns, and afterwards the range is non-decreasing under
    [comp] and holds a permutation of what it held. *)
Theorem merge_sort_cutoff_sizes (A : Type) (comp : A → A → bool)
    (first last aux : nat) (mem buf : list A) :
  StrictWeakOrder comp →
  last - first = 16 ∨ last - first = 17 →
  last ≤ length mem → aux + (last - first) ≤ length buf →
  ∃ mem' buf', merge_sort comp first last aux mem buf = Some (mem', buf') ∧
    nondecreasing comp (slice first last mem') ∧
    slice first last mem' ≡ₚ slice first last mem.
Proof.
  intros Hswo Hdim Hb Haux.
  destruct (merge_sort_16_17 comp first last aux mem buf)
    as (mem' & buf' & -> & Hfr & Hnd); [lia|done..|].
  exists mem', buf'. split; [done|]. split; [by apply Hnd|].
  apply rearranged_within_slice; [lia|done].
Qed.

Lemma merge_sort_cutoff_sizes_witness :
  StrictWeakOrder Nat.ltb ∧ (18 - 1 = 16 ∨ 18 - 1 = 17) ∧
  18 ≤ length (reverse (seq 0 20)) ∧ 2 + (18 - 1) ≤ length (replicate 20 0) ∧
  ∃ mem' buf',
    merge_sort Nat.ltb 1 18 2 (reverse (seq 0 20)) (replicate 20 0)
    = Some (mem', buf') ∧
    nondecreasing Nat.ltb (slice 1 18 mem') ∧
    slice 1 18 mem' ≡ₚ slice 1 18 (reverse (seq 0 20)).
Proof.
  split; [exact ltb_strict_weak_order|]. split; [right; reflexivity|].
  split; [vm_compute; lia|]. split; [vm_compute; lia|].
  apply (merge_sort_cutoff_sizes nat Nat.ltb 1 18 2).
  - exact ltb_strict_weak_order.
  - right. reflexivity.
  - vm_compute. lia.
  - vm_compute. lia.
Defined.

(** C8.  [shell_sort] is not stable: under the ordering by key, the input
    [(1,a),(1,b),(2,c),(2,d),(0,e),(3,f)] comes out with [(1,b)] before
    [(1,a)].  The pass with gap 4 swaps [(0,e)] with [(1,a)] over
    [(1,b)]. *)
Theorem shell_sort_not_stable :
  ∃ (l l' : list (nat * ascii)),
    StrictWeakOrder (by_key (L:=ascii) Nat.ltb) ∧
    shell_sort (by_key Nat.ltb) 0 (length l) l = Some l' ∧
    l = [(1, "a"); (1, "b"); (2, "c"); (2, "d"); (0, "e"); (3, "f")] ∧
    l' = [(0, "e"); (1, "b"); (1, "a"); (2, "c"); (2, "d"); (3, "f")] ∧
    ¬ order_of_equals_kept (by_key Nat.ltb) l l'.
Proof.
  eexists _, _.
  split; [apply by_key_strict_weak_order, ltb_strict_weak_order|].
  split; [|split; [reflexivity|split; [reflexivity|]]]; [reflexivity|].
  intros Hkept. specialize (Hkept (1, "a")). vm_compute in Hkept.
  discriminate Hkept.
Qed.

(** C9.  For every call of [insertion_sort], [shell_sort] or [merge_sort]
    on a range [first, last) of a larger sequence (for [merge_sort]: with
    an auxiliary buffer, outside that sequence, with room for the range),
    the call returns and every element of the sequence outside
    [first, last) is where it was. *)
Theorem sorts_keep_outside (A : Type) (comp : A → A → bool)
    (first last : nat) (mem : list A) :
  first ≤ last ≤ length mem →
  (∃ mem', insertion_sort comp first last mem = Some mem' ∧
     same_outside first last mem mem') ∧
  (∃ mem', shell_sort comp first last mem = Some mem' ∧
     same_outside first last mem mem') ∧
  (∀ (aux : nat) (buf : list A), aux + (last - first) ≤ length buf →
     ∃ mem' buf', merge_sort comp first last aux mem buf = Some (mem', buf') ∧
       same_outside first last mem mem').
Proof.
  intros Hb. split_and!.
  - destruct (insertion_sort_rearranged comp first last mem Hb)
      as (mem' & -> & Hfr & _).
    exists mem'. split; [done|]. by apply rearranged_same_outside.
  - destruct (shell_sort_spec comp first last mem Hb) as (mem' & -> & Hfr & _).
    exists mem'. split; [done|]. by apply rearranged_same_outside.
  - intros aux buf Haux.
    destruct (merge_sort_frame comp first last aux mem buf Hb Haux)
      as (mem' & buf' & -> & Hout & _).
    by exists mem', buf'.
Qed.

Lemma sorts_keep_outside_witness :
  3 ≤ 43 ≤ length (reverse (seq 0 50)) ∧
  (∃ mem', insertion_sort Nat.ltb 3 43 (reverse (seq 0 50)) = Some mem' ∧
     same_outside 3 43 (reverse (seq 0 50)) mem') ∧
  (∃ mem', shell_sort Nat.ltb 3 43 (reverse (seq 0 50)) = Some mem' ∧
     same_outside 3 43 (reverse (seq 0 50)) mem') ∧
  (∀ (aux : nat) (buf : list nat), aux + (43 - 3) ≤ length buf →
     ∃ mem' buf',
       merge_sort Nat.ltb 3 43 aux (reverse (seq 0 50)) buf
       = Some (mem', buf') ∧
       same_outside 3 43 (reverse (seq 0 50)) mem').
Proof.
  split; [vm_compute; lia|].
  apply (sorts_keep_outside nat Nat.ltb 3 43 (reverse (seq 0 50))).
  vm_compute. lia.
Defined.

(** C10.  For every range [first, last), every gap [h] with
    [0 < h < last - first] and every strict weak ordering [comp], one call
    of [h_sort] returns and leaves the range a permutation of what it held
    and fully [h]-ordered: for every position [p] with
    [first + h <= p < last] the element at [p] is not smaller than the one
    at [p - h].  Every stride class is then sorted as a whole: the same
    holds for the element any number [n] of strides before [p]. *)
Theorem h_sort_h_orders (A : Type) (comp : A → A → bool)
    (first last h : nat) (mem : list A) :
  StrictWeakOrder comp → 0 < h < last - first → last ≤ length mem →
  ∃ mem', h_sort comp first last h mem = Some mem' ∧
    slice first last mem' ≡ₚ slice first last mem ∧
    (∀ p, first + h ≤ p < last →
       ∃ x y, mem' !! p = Some x ∧ mem' !! (p - h) = Some y ∧
              comp x y = false) ∧
    (∀ n p, 0 < n → first + n * h ≤ p < last →
       ∃ x y, mem' !! p = Some x ∧ mem' !! (p - n * h) = Some y ∧
              comp x y = false).
Proof.
  intros Hswo Hh Hb.
  destruct (h_sort_spec comp first last h mem) as (mem' & -> & Hfr & Hord);
    [lia..|].
  specialize (Hord Hswo). pose proof Hfr as (Hlen & _ & _).
  exists mem'. split; [done|].
  split; [apply rearranged_within_slice; [lia|done]|].
  assert (∀ n p, 0 < n → first + n * h ≤ p < last →
     ∃ x y, mem' !! p = Some x ∧ mem' !! (p - n * h) = Some y ∧
            comp x y = false) as Hstrides.
  { intros n p Hn Hp.
    destruct (lookup_lt_is_Some_2 mem' p) as [x Hx]; [lia|].
    destruct (lookup_lt_is_Some_2 mem' (p - n * h)) as [y Hy]; [lia|].
    exists x, y. split; [done|]. split; [done|].
    by apply (h_ordered_strides comp first last h mem' Hswo ltac:(lia)
                ltac:(lia) Hord n p Hn Hp x y). }
  split; [|done].
  intros p Hp. destruct (Hstrides 1 p) as (x & y & Hx & Hy & Hxy); [lia..|].
  rewrite Nat.mul_1_l in Hy. by exists x, y.
Qed.

Lemma h_sort_h_orders_witness :
  StrictWeakOrder Nat.ltb ∧ 0 < 3 < 9 - 1 ∧
  9 ≤ length [9; 8; 7; 6; 5; 4; 3; 2; 1; 0] ∧
  ∃ mem', h_sort Nat.ltb 1 9 3 [9; 8; 7; 6; 5; 4; 3; 2; 1; 0] = Some mem' ∧
    slice 1 9 mem' ≡ₚ slice 1 9 [9; 8; 7; 6; 5; 4; 3; 2; 1; 0] ∧
    (∀ p, 1 + 3 ≤ p < 9 →
       ∃ x y, mem' !! p = Some x ∧ mem' !! (p - 3) = Some y ∧
              Nat.ltb x y = false) ∧
    (∀ n p, 0 < n → 1 + n * 3 ≤ p < 9 →
       ∃ x y, mem' !! p = Some x ∧ mem' !! (p - n * 3) = Some y ∧
              Nat.ltb x y = false).
Proof.
  split; [exact ltb_strict_weak_order|]. split; [lia|]. split; [simpl; lia|].
  apply (h_sort_h_orders nat Nat.ltb 1 9 3 [9; 8; 7; 6; 5; 4; 3; 2; 1; 0]).
  - exact ltb_strict_weak_order.
  - lia.
  - simpl. lia.
Defined.

(** C1.  What the code does on the 40-element scenario.  The range holds
    40, 39, ..., 1 and the buffer 40 zeros.  The pass with run size 16
    merges the runs at offsets 0 and 16 into the buffer and leaves out the
    run at offset 32, which has no partner; the copy back then overwrites
    offsets 32 to 39 of the range with the zeros of the buffer.  The call
    ends with eight zeros followed by 9, ..., 40: not the ascending
    sequence 1, ..., 40 and not a permutation of the input. *)
Theorem merge_sort_40_reverse_sorted :
  merge_sort Nat.ltb 0 40 0 (reverse (seq 1 40)) (replicate 40 0)
  = Some (replicate 8 0 ++ seq 9 32, replicate 8 0 ++ seq 9 32) ∧
  replicate 8 0 ++ seq 9 32 ≠ seq 1 40 ∧
  ¬ (replicate 8 0 ++ seq 9 32 ≡ₚ reverse (seq 1 40)).
Proof.
  split; [vm_compute; reflexivity|]. split; [discriminate|].
  intros Hp.
  assert (0 ∈ reverse (seq 1 40)) as H0 by (rewrite <-Hp; left).
  rewrite elem_of_reverse, elem_of_seq in H0. lia.
Qed.

(** C5.  What the code does on 40 records ordered by key, with the
    records [(1,a)], [(1,b)], [(0,c)] at offsets 32 to 34 and a buffer of
    40 records [(0,z)].  The run at offset 32 is overwritten from the
    buffer, as in C1: [(1,a)] and [(1,b)] are not in the range when the
    call ends, so their relative order is not kept. *)
Theorem merge_sort_40_equal_keys :
  let mem := replicate 32 (2, "x") ++ [(1, "a"); (1, "b"); (0, "c")]
             ++ replicate 5 (3, "y") in
  let out := replicate 8 (0, "z") ++ replicate 32 (2, "x") in
  merge_sort (by_key Nat.ltb) 0 40 0 mem (replicate 40 (0, "z"))
  = Some (out, out) ∧
  ((1, "a") ∉ out) ∧ ((1, "b") ∉ out) ∧
  ¬ order_of_equals_kept (by_key Nat.ltb) mem out.
Proof.
  cbv zeta. split; [vm_compute; reflexivity|].
  split_and!.
  - intros [Hin|Hin]%elem_of_app; apply elem_of_replicate in Hin as [? _];
      discriminate.
  - intros [Hin|Hin]%elem_of_app; apply elem_of_replicate in Hin as [? _];
      discriminate.
  - intros Hkept. specialize (Hkept (1, "a")). vm_compute in Hkept.
    discriminate Hkept.
Qed.

(** C6.  What the code does on the sorted range 1, ..., 40 with a buffer
    of 40 zeros: the run at offset 32 is overwritten from the buffer, as
    in C1, and the call ends with eight zeros followed by 1, ..., 32. *)
Theorem merge_sort_40_sorted_input :
  nondecreasing Nat.ltb (seq 1 40) ∧
  merge_sort Nat.ltb 0 40 0 (seq 1 40) (replicate 40 0)
  = Some (replicate 8 0 ++ seq 1 32, replicate 8 0 ++ seq 1 32) ∧
  replicate 8 0 ++ seq 1 32 ≠ seq 1 40.
Proof.
  split_and!; [|vm_compute; reflexivity|discriminate].
  intros i j x y Hij [-> _]%lookup_seq [-> _]%lookup_seq.
  apply Nat.ltb_ge. lia.
Qed.

(** The parts of the stability and idempotence properties that do hold on
    the code at the spec's own scenarios. *)
Example merge_sort_stable_3 :
  merge_sort (by_key Nat.ltb) 0 3 0 [(1, "a"); (1, "b"); (0, "c")]
    (replicate 3 (0, "z"))
  = Some ([(0, "c"); (1, "a"); (1, "b")], replicate 3 (0, "z")).
Proof. reflexivity. Qed.

(** * Further properties of the routines *)

(** X1.  [insertion_sort] is stable: for every range and every strict weak
    ordering, elements that the ordering cannot tell apart are in the
    range in the same order after the call as before. *)
Theorem insertion_sort_keeps_equal_order (A : Type) (comp : A → A → bool)
    (first last : nat) (mem : list A) :
  StrictWeakOrder comp → first ≤ last ≤ length mem →
  ∃ mem', insertion_sort comp first last mem = Some mem' ∧
    order_of_equals_kept comp (slice first last mem) (slice first last mem').
Proof.
  intros Hswo Hb.
  destruct (insertion_sort_rearranged comp first last mem Hb)
    as (mem' & -> & _ & Hs).
  exists mem'. split; [done|]. rewrite Hs. by apply isort_stable.
Qed.

Lemma insertion_sort_keeps_equal_order_witness :
  StrictWeakOrder (by_key (L:=ascii) Nat.ltb) ∧
  0 ≤ 3 ≤ length [(1, "a"); (1, "b"); (0, "c")] ∧
  ∃ mem', insertion_sort (by_key Nat.ltb) 0 3 [(1, "a"); (1, "b"); (0, "c")]
          = Some mem' ∧
    order_of_equals_kept (by_key Nat.ltb)
      (slice 0 3 [(1, "a"); (1, "b"); (0, "c")]) (slice 0 3 mem').
Proof.
  split; [apply by_key_strict_weak_order, ltb_strict_weak_order|].
  split; [simpl; lia|].
  apply (insertion_sort_keeps_equal_order _ (by_key Nat.ltb) 0 3
           [(1, "a"); (1, "b"); (0, "c")]).
  - apply by_key_strict_weak_order, ltb_strict_weak_order.
  - simpl. lia.
Defined.

(** X2.  On a range that is non-decreasing already, [insertion_sort],
    [shell_sort] and every pass [h_sort] with a gap [h > 0] return the
    storage as it is, whatever the comparator. *)
Theorem sorted_range_unchanged (A : Type) (comp : A → A → bool)
    (first last : nat) (mem : list A) :
  first ≤ last ≤ length mem →
  nondecreasing comp (slice first last mem) →
  insertion_sort comp first last mem = Some mem ∧
  shell_sort comp first last mem = Some mem ∧
  ∀ h, 0 < h → h_sort comp first last h mem = Some mem.
Proof.
  intros Hb Hnd. split_and!.
  - by apply insertion_sort_sorted_unchanged.
  - by apply shell_sort_sorted_unchanged.
  - intros h Hh. by apply h_sort_sorted_unchanged.
Qed.

Lemma sorted_range_unchanged_witness :
  2 ≤ 102 ≤ length (seq 0 110) ∧
  nondecreasing Nat.ltb (slice 2 102 (seq 0 110)) ∧
  insertion_sort Nat.ltb 2 102 (seq 0 110) = Some (seq 0 110) ∧
  shell_sort Nat.ltb 2 102 (seq 0 110) = Some (seq 0 110) ∧
  ∀ h, 0 < h → h_sort Nat.ltb 2 102 h (seq 0 110) = Some (seq 0 110).
Proof.
  assert (2 ≤ 102 ≤ length (seq 0 110)) as Hb by (rewrite length_seq; lia).
  assert (nondecreasing Nat.ltb (slice 2 102 (seq 0 110))) as Hnd.
  { change (slice 2 102 (seq 0 110)) with (seq 2 100).
    apply seq_nondecreasing. }
  split; [exact Hb|]. split; [exact Hnd|].
  exact (sorted_range_unchanged nat Nat.ltb 2 102 (seq 0 110) Hb Hnd).
Defined.

(** X3.  Whatever the comparator, strict weak ordering or not,
    [insertion_sort], [shell_sort] and [h_sort] with a gap [h > 0] return,
    and the storage they return is the given one with the elements of the
    range rearranged: nothing is lost or duplicated. *)
Theorem sorts_rearrange_any_comparator (A : Type) (comp : A → A → bool)
    (first last : nat) (mem : list A) :
  first ≤ last ≤ length mem →
  (∃ mem', insertion_sort comp first last mem = Some mem' ∧
     rearranged_within first last mem mem') ∧
  (∃ mem', shell_sort comp first last mem = Some mem' ∧
     rearranged_within first last mem mem') ∧
  (∀ h, 0 < h →
     ∃ mem', h_sort comp first last h mem = Some mem' ∧
       rearranged_within first last mem mem').
Proof.
  intros Hb. split_and!.
  - destruct (insertion_sort_rearranged comp first last mem Hb)
      as (mem' & -> & Hfr & _). by exists mem'.
  - destruct (shell_sort_spec comp first last mem Hb) as (mem' & -> & Hfr & _).
    by exists mem'.
  - intros h Hh.
    destruct (h_sort_spec comp first last h mem Hh Hb) as (mem' & -> & Hfr & _).
    by exists mem'.
Qed.

Lemma sorts_rearrange_any_comparator_witness :
  1 ≤ 8 ≤ length [3; 1; 4; 1; 5; 9; 2; 6; 5] ∧
  (∃ mem', insertion_sort (λ _ _, true) 1 8 [3; 1; 4; 1; 5; 9; 2; 6; 5]
           = Some mem' ∧
     rearranged_within 1 8 [3; 1; 4; 1; 5; 9; 2; 6; 5] mem') ∧
  (∃ mem', shell_sort (λ _ _, true) 1 8 [3; 1; 4; 1; 5; 9; 2; 6; 5]
           = Some mem' ∧
     rearranged_within 1 8 [3; 1; 4; 1; 5; 9; 2; 6; 5] mem') ∧
  (∀ h, 0 < h →
     ∃ mem', h_sort (λ _ _, true) 1 8 h [3; 1; 4; 1; 5; 9; 2; 6; 5]
             = Some mem' ∧
       rearranged_within 1 8 [3; 1; 4; 1; 5; 9; 2; 6; 5] mem').
Proof.
  split; [simpl; lia|].
  apply (sorts_rearrange_any_comparator nat (λ _ _, true) 1 8
           [3; 1; 4; 1; 5; 9; 2; 6; 5]).
  simpl. lia.
Defined.

(** X4.  Sorting again changes nothing: after [insertion_sort] or
    [shell_sort] on a range, under a strict weak ordering, both routines
    return the storage as it is. *)
Theorem sorting_again_changes_nothing (A : Type) (comp : A → A → bool)
    (first last : nat) (mem mem' : list A) :
  StrictWeakOrder comp → first ≤ last ≤ length mem →
  insertion_sort comp first last mem = Some mem'
  ∨ shell_sort comp first last mem = Some mem' →
  insertion_sort comp first last mem' = Some mem' ∧
  shell_sort comp first last mem' = Some mem'.
Proof.
  intros Hswo Hb Hsorted.
  assert (length mem' = length mem
          ∧ nondecreasing comp (slice first last mem')) as [Hlen Hnd].
  { destruct Hsorted as [Hs|Hs].
    - destruct (insertion_sort_rearranged comp first last mem Hb)
        as (m & Hm & (Hl & _) & Hsl).
      rewrite Hs in Hm. injection Hm as <-. split; [done|].
      rewrite Hsl. by apply isort_nondecreasing.
    - destruct (shell_sort_spec comp first last mem Hb)
        as (m & Hm & (Hl & _) & Hsl).
      rewrite Hs in Hm. injection Hm as <-. split; [done|]. by apply Hsl. }
  split.
  - apply insertion_sort_sorted_unchanged; [lia|done].
  - apply shell_sort_sorted_unchanged; [lia|done].
Qed.

Lemma sorting_again_changes_nothing_witness :
  StrictWeakOrder Nat.ltb ∧ 0 ≤ 9 ≤ length [9; 8; 7; 6; 5; 4; 3; 2; 1] ∧
  (insertion_sort Nat.ltb 0 9 [9; 8; 7; 6; 5; 4; 3; 2; 1]
   = Some [1; 2; 3; 4; 5; 6; 7; 8; 9]
   ∨ shell_sort Nat.ltb 0 9 [9; 8; 7; 6; 5; 4; 3; 2; 1]
     = Some [1; 2; 3; 4; 5; 6; 7; 8; 9]) ∧
  insertion_sort Nat.ltb 0 9 [1; 2; 3; 4; 5; 6; 7; 8; 9]
  = Some [1; 2; 3; 4; 5; 6; 7; 8; 9] ∧
  shell_sort Nat.ltb 0 9 [1; 2; 3; 4; 5; 6; 7; 8; 9]
  = Some [1; 2; 3; 4; 5; 6; 7; 8; 9].
Proof.
  split; [exact ltb_strict_weak_order|]. split; [simpl; lia|].
  split; [right; reflexivity|].
  apply (sorting_again_changes_nothing nat Nat.ltb 0 9
           [9; 8; 7; 6; 5; 4; 3; 2; 1]).
  - exact ltb_strict_weak_order.
  - simpl. lia.
  - right. reflexivity.
Defined.

(** X5.  On a range of at most 16 elements (the cutoff) [merge_sort] does
    what [insertion_sort] does and neither reads nor writes the auxiliary
    buffer: the buffer comes back as it was, whatever its capacity. *)
Theorem merge_sort_small_is_insertion_sort (A : Type) (comp : A → A → bool)
    (first last aux : nat) (mem buf : list A) :
  first ≤ last ≤ length mem → last - first ≤ 16 →
  ∃ mem', insertion_sort comp first last mem = Some mem' ∧
    merge_sort comp first last aux mem buf = Some (mem', buf).
Proof.
  intros Hb Hdim. rewrite merge_sort_small by done.
  destruct (insertion_sort_rearranged comp first last mem Hb)
    as (mem' & -> & _).
  by exists mem'.
Qed.

Lemma merge_sort_small_is_insertion_sort_witness :
  2 ≤ 18 ≤ length (reverse (seq 0 20)) ∧ 18 - 2 ≤ 16 ∧
  ∃ mem', insertion_sort Nat.ltb 2 18 (reverse (seq 0 20)) = Some mem' ∧
    merge_sort Nat.ltb 2 18 7 (reverse (seq 0 20)) [] = Some (mem', []).
Proof.
  split; [vm_compute; lia|]. split; [lia|].
  apply (merge_sort_small_is_insertion_sort nat Nat.ltb 2 18 7).
  - vm_compute. lia.
  - lia.
Defined.

(** X6.  [merge_sort] sorts, and is stable, on every range whose length
    [n] is at most 16 or leaves a remainder of 0 or of more than 16 when
    divided by 32: these are the lengths for which every run of 16
    elements has a partner in the first pass of merges. *)
Theorem merge_sort_correct_paired (A : Type) (comp : A → A → bool)
    (first last aux : nat) (mem buf : list A) :
  StrictWeakOrder comp →
  first ≤ last ≤ length mem → aux + (last - first) ≤ length buf →
  last - first ≤ 16 ∨ (last - first) mod 32 = 0 ∨ 16 < (last - first) mod 32 →
  ∃ mem' buf', merge_sort comp first last aux mem buf = Some (mem', buf') ∧
    nondecreasing comp (slice first last mem') ∧
    slice first last mem' ≡ₚ slice first last mem ∧
    order_of_equals_kept comp (slice first last mem) (slice first last mem').
Proof.
  intros Hswo Hb Haux Hn.
  destruct (decide (last - first ≤ 16)) as [Hsmall|Hbig].
  - rewrite merge_sort_small by done.
    destruct (insertion_sort_rearranged comp first last mem Hb)
      as (mem' & -> & _ & Hs).
    exists mem', buf. split; [done|]. rewrite Hs.
    split; [by apply isort_nondecreasing|].
    split; [apply isort_Permutation|by apply isort_stable].
  - destruct (merge_sort_large comp first last aux mem buf Hb Haux)
      as (mem' & buf' & c & -> & _ & _ & Hc & Hperm & _ & Hsorted); [lia|].
    assert (c = last - first) as ->.
    { destruct Hc as [[-> _]|(j & -> & Hj)]; [done|].
      pose proof (unpaired_remainder _ _ Hj). lia. }
    assert (length (slice first last mem) = last - first) as HL
      by (rewrite length_slice; lia).
    assert (length (slice aux (aux + (last - first)) buf) = last - first)
      as HB by (rewrite length_slice; lia).
    rewrite drop_ge, app_nil_r, take_ge in Hperm, Hsorted by lia.
    destruct (Hsorted Hswo (nondecreasing_nil comp)) as [Hnd Hkept].
    by exists mem', buf'.
Qed.

Lemma merge_sort_correct_paired_witness :
  StrictWeakOrder Nat.ltb ∧
  3 ≤ 63 ≤ length (reverse (seq 0 70)) ∧
  5 + (63 - 3) ≤ length (replicate 70 0) ∧
  (63 - 3 ≤ 16 ∨ (63 - 3) mod 32 = 0 ∨ 16 < (63 - 3) mod 32) ∧
  ∃ mem' buf',
    merge_sort Nat.ltb 3 63 5 (reverse (seq 0 70)) (replicate 70 0)
    = Some (mem', buf') ∧
    nondecreasing Nat.ltb (slice 3 63 mem') ∧
    slice 3 63 mem' ≡ₚ slice 3 63 (reverse (seq 0 70)) ∧
    order_of_equals_kept Nat.ltb (slice 3 63 (reverse (seq 0 70)))
      (slice 3 63 mem').
Proof.
  split; [exact ltb_strict_weak_order|].
  split; [vm_compute; lia|]. split; [vm_compute; lia|].
  split; [right; right; vm_compute; lia|].
  apply (merge_sort_correct_paired nat Nat.ltb 3 63 5).
  - exact ltb_strict_weak_order.
  - vm_compute. lia.
  - vm_compute. lia.
  - right. right. vm_compute. lia.
Defined.

(** X7.  On a range of more than 16 elements whose length [n] leaves a
    remainder [r] between 1 and 16 when divided by 32, the last run of the
    first pass of merges has no partner and is not stored to the buffer
    before the buffer is copied back.  The call returns, and the range
    ends as a rearrangement of its first [n - r] elements and of the [r]
    elements that the buffer held at offsets [n - r], ..., [n - 1] when
    the call began: the last [r] elements of the range do not contribute
    to the result.  If those buffer elements were in order, the range ends
    non-decreasing all the same. *)
Theorem merge_sort_unpaired_run (A : Type) (comp : A → A → bool)
    (first last aux : nat) (mem buf : list A) :
  first ≤ last ≤ length mem → aux + (last - first) ≤ length buf →
  16 < last - first → 1 ≤ (last - first) mod 32 ≤ 16 →
  ∃ mem' buf', merge_sort comp first last aux mem buf = Some (mem', buf') ∧
    slice first last mem'
      ≡ₚ slice first (last - (last - first) mod 32) mem
          ++ slice (aux + (last - first) - (last - first) mod 32)
               (aux + (last - first)) buf ∧
    (StrictWeakOrder comp →
     nondecreasing comp
       (slice (aux + (last - first) - (last - first) mod 32)
          (aux + (last - first)) buf) →
     nondecreasing comp (slice first last mem')).
Proof.
  intros Hb Haux Hdim Hr.
  destruct (merge_sort_large comp first last aux mem buf Hb Haux Hdim)
    as (mem' & buf' & c & -> & _ & _ & Hc & Hperm & _ & Hsorted).
  exists mem', buf'. split; [done|].
  assert (c = last - first - (last - first) mod 32 ∧ c < last - first)
    as [Hcr Hcn].
  { destruct Hc as [[-> (j & Hj)]|(j & -> & Hj)].
    - assert ((last - first) mod 32
              = last - first - j * 32 ∨ (last - first) mod 32 = 0) as Hm.
      { destruct (decide (last - first = S j * 32)) as [Heq|Hne].
        - right. rewrite Heq. apply Nat.Div0.mod_mul.
        - left. symmetry. apply (Nat.mod_unique _ 32 j); lia. }
      lia.
    - pose proof (unpaired_remainder _ _ Hj). lia. }
  assert (take c (slice first last mem)
          = slice first (last - (last - first) mod 32) mem) as Htake.
  { pose proof (take_drop_slice first last mem 0 c ltac:(lia)) as Ht.
    rewrite drop_0, Nat.add_0_r in Ht. rewrite Ht. f_equal. lia. }
  assert (drop c (slice aux (aux + (last - first)) buf)
          = slice (aux + (last - first) - (last - first) mod 32)
              (aux + (last - first)) buf) as Hdrop.
  { rewrite <-(take_ge (drop c _) (last - first - c))
      by (rewrite length_drop, length_slice; lia).
    rewrite take_drop_slice by lia. f_equal; lia. }
  rewrite Htake, Hdrop in Hperm. rewrite Hdrop in Hsorted.
  split; [done|]. intros Hswo Htail. by apply Hsorted.
Qed.

Lemma merge_sort_unpaired_run_witness :
  2 ≤ 42 ≤ length (reverse (seq 0 50)) ∧
  1 + (42 - 2) ≤ length (replicate 45 0) ∧
  16 < 42 - 2 ∧ 1 ≤ (42 - 2) mod 32 ≤ 16 ∧
  ∃ mem' buf',
    merge_sort Nat.ltb 2 42 1 (reverse (seq 0 50)) (replicate 45 0)
    = Some (mem', buf') ∧
    slice 2 42 mem'
      ≡ₚ slice 2 (42 - (42 - 2) mod 32) (reverse (seq 0 50))
          ++ slice (1 + (42 - 2) - (42 - 2) mod 32) (1 + (42 - 2))
               (replicate 45 0) ∧
    (StrictWeakOrder Nat.ltb →
     nondecreasing Nat.ltb
       (slice (1 + (42 - 2) - (42 - 2) mod 32) (1 + (42 - 2))
          (replicate 45 0)) →
     nondecreasing Nat.ltb (slice 2 42 mem')).
Proof.
  split; [vm_compute; lia|]. split; [vm_compute; lia|].
  split; [lia|]. split; [vm_compute; lia|].
  apply (merge_sort_unpaired_run nat Nat.ltb 2 42 1).
  - vm_compute. lia.
  - vm_compute. lia.
  - lia.
  - vm_compute. lia.
Defined.

(** X8.  What [merge_sort] does to the auxiliary buffer.  It writes only
    to the buffer positions [aux], ..., [aux + n - 1], where [n] is the
    length of the range; on a range of more than 16 elements these
    positions hold a copy of the range when the call ends. *)
Theorem merge_sort_buffer (A : Type) (comp : A → A → bool)
    (first last aux : nat) (mem buf : list A) :
  first ≤ last ≤ length mem → aux + (last - first) ≤ length buf →
  ∃ mem' buf', merge_sort comp first last aux mem buf = Some (mem', buf') ∧
    same_outside aux (aux + (last - first)) buf buf' ∧
    (16 < last - first →
     slice aux (aux + (last - first)) buf' = slice first last mem').
Proof.
  intros Hb Haux.
  destruct (decide (last - first ≤ 16)) as [Hsmall|Hbig].
  - rewrite merge_sort_small by done.
    destruct (insertion_sort_rearranged comp first last mem Hb)
      as (mem' & -> & _).
    exists mem', buf. split; [done|]. split; [done|lia].
  - destruct (merge_sort_large comp first last aux mem buf Hb Haux)
      as (mem' & buf' & c & -> & _ & Hob & _ & _ & Hmir & _); [lia|].
    by exists mem', buf'.
Qed.

Lemma merge_sort_buffer_witness :
  2 ≤ 42 ≤ length (reverse (seq 0 50)) ∧
  1 + (42 - 2) ≤ length (replicate 45 0) ∧
  ∃ mem' buf',
    merge_sort Nat.ltb 2 42 1 (reverse (seq 0 50)) (replicate 45 0)
    = Some (mem', buf') ∧
    same_outside 1 (1 + (42 - 2)) (replicate 45 0) buf' ∧
    (16 < 42 - 2 → slice 1 (1 + (42 - 2)) buf' = slice 2 42 mem').
Proof.
  split; [vm_compute; lia|]. split; [vm_compute; lia|].
  apply (merge_sort_buffer nat Nat.ltb 2 42 1).
  - vm_compute. lia.
  - vm_compute. lia.
Defined.

(** X9.  Under a strict weak ordering [merge_sort] and [insertion_sort]
    return the same storage, on every range whose length is at most 16 or
    leaves a remainder of 0 or of more than 16 when divided by 32: both
    are stable sorts, and a stable sort has one possible result. *)
Theorem merge_sort_agrees_with_insertion_sort (A : Type)
    (comp : A → A → bool) (first last aux : nat) (mem buf : list A) :
  StrictWeakOrder comp →
  first ≤ last ≤ length mem → aux + (last - first) ≤ length buf →
  last - first ≤ 16 ∨ (last - first) mod 32 = 0 ∨ 16 < (last - first) mod 32 →
  ∃ mem' buf', merge_sort comp first last aux mem buf = Some (mem', buf') ∧
    insertion_sort comp first last mem = Some mem'.
Proof.
  intros Hswo Hb Haux Hn.
  destruct (insertion_sort_rearranged comp first last mem Hb)
    as (mi & Hi & Hfri & Hsi).
  destruct (decide (last - first ≤ 16)) as [Hsmall|Hbig].
  { rewrite merge_sort_small, Hi by done. by exists mi, buf. }
  destruct (merge_sort_large comp first last aux mem buf Hb Haux)
    as (mem' & buf' & c & -> & Hom & _ & Hc & _ & _ & Hsorted); [lia|].
  exists mem', buf'. split; [done|]. rewrite Hi. f_equal.
  assert (c = last - first) as ->.
  { destruct Hc as [[-> _]|(j & -> & Hj)]; [done|].
    pose proof (unpaired_remainder _ _ Hj). lia. }
  assert (length (slice first last mem) = last - first) as HL
    by (rewrite length_slice; lia).
  assert (length (slice aux (aux + (last - first)) buf) = last - first)
    as HB by (rewrite length_slice; lia).
  rewrite drop_ge, app_nil_r, take_ge in Hsorted by lia.
  destruct (Hsorted Hswo (nondecreasing_nil comp)) as [Hnd Hkept].
  apply (same_outside_eq first last mem); [done| |done|].
  { by apply rearranged_same_outside. }
  apply (stable_sorted_unique comp Hswo).
  - rewrite Hsi. by apply isort_nondecreasing.
  - done.
  - intros k. rewrite (Hkept k), Hsi. symmetry. by apply isort_stable.
Qed.

Lemma merge_sort_agrees_with_insertion_sort_witness :
  StrictWeakOrder (by_key (L:=nat) Nat.ltb) ∧
  1 ≤ 50 ≤ length (imap (λ i k, (k mod 5, i)) (seq 0 50)) ∧
  0 + (50 - 1) ≤ length (replicate 49 (0, 0)) ∧
  (50 - 1 ≤ 16 ∨ (50 - 1) mod 32 = 0 ∨ 16 < (50 - 1) mod 32) ∧
  ∃ mem' buf',
    merge_sort (by_key Nat.ltb) 1 50 0
      (imap (λ i k, (k mod 5, i)) (seq 0 50)) (replicate 49 (0, 0))
    = Some (mem', buf') ∧
    insertion_sort (by_key Nat.ltb) 1 50
      (imap (λ i k, (k mod 5, i)) (seq 0 50)) = Some mem'.
Proof.
  split; [apply by_key_strict_weak_order, ltb_strict_weak_order|].
  split; [vm_compute; lia|]. split; [vm_compute; lia|].
  split; [right; right; vm_compute; lia|].
  apply (merge_sort_agrees_with_insertion_sort _ (by_key Nat.ltb) 1 50 0).
  - apply by_key_strict_weak_order, ltb_strict_weak_order.
  - vm_compute. lia.
  - vm_compute. lia.
  - right. right. vm_compute. lia.
Defined.

(** X10.  Under a total strict ordering (elements that compare in neither
    direction are equal) [shell_sort] and [insertion_sort] return the same
    storage. *)
Theorem shell_sort_agrees_with_insertion_sort (A : Type)
    (comp : A → A → bool) (first last : nat) (mem : list A) :
  StrictWeakOrder comp →
  (∀ x y, comp x y = false → comp y x = false → x = y) →
  first ≤ last ≤ length mem →
  ∃ mem', shell_sort comp first last mem = Some mem' ∧
    insertion_sort comp first last mem = Some mem'.
Proof.
  intros Hswo Htot Hb.
  destruct (insertion_sort_rearranged comp first last mem Hb)
    as (mi & Hi & Hfri & Hsi).
  destruct (shell_sort_spec comp first last mem Hb) as (ms & Hs & Hfrs & Hnd).
  exists ms. split; [done|]. rewrite Hi. f_equal.
  pose proof (rearranged_within_slice first last mem mi Hb Hfri)
    as (_ & _ & Hpi).
  pose proof (rearranged_within_slice first last mem ms Hb Hfrs)
    as (_ & _ & Hps).
  apply (same_outside_eq first last mem);
    [done|by apply rearranged_same_outside..|].
  apply (stable_sorted_unique comp Hswo).
  - rewrite Hsi. by apply isort_nondecreasing.
  - by apply Hnd.
  - apply Permutation_kept_total; [done..|]. by rewrite Hps, Hpi.
Qed.

Lemma shell_sort_agrees_with_insertion_sort_witness :
  StrictWeakOrder Nat.ltb ∧
  (∀ x y, Nat.ltb x y = false → Nat.ltb y x = false → x = y) ∧
  1 ≤ 9 ≤ length [0; 8; 7; 6; 5; 4; 3; 2; 1; 9] ∧
  ∃ mem', shell_sort Nat.ltb 1 9 [0; 8; 7; 6; 5; 4; 3; 2; 1; 9] = Some mem' ∧
    insertion_sort Nat.ltb 1 9 [0; 8; 7; 6; 5; 4; 3; 2; 1; 9] = Some mem'.
Proof.
  assert (∀ x y, Nat.ltb x y = false → Nat.ltb y x = false → x = y) as Htot.
  { intros x y Hxy%Nat.ltb_ge Hyx%Nat.ltb_ge. lia. }
  split; [exact ltb_strict_weak_order|]. split; [exact Htot|].
  split; [simpl; lia|].
  apply (shell_sort_agrees_with_insertion_sort nat Nat.ltb 1 9
           [0; 8; 7; 6; 5; 4; 3; 2; 1; 9]).
  - exact ltb_strict_weak_order.
  - exact Htot.
  - simpl. lia.
Defined.

(** X11.  [knuth_seq n] is 1 exactly when [n < 6]: the loop is not entered
    as long as [n/3] is at most 1, which covers the empty and the
    one-element range. *)
Theorem knuth_seq_one (n : nat) : knuth_seq n = 1 ↔ n < 6.
Proof.
  split; [|apply knuth_seq_below_6].
  intros H1. apply div3_le_1.
  destruct (knuth_seq_spec n) as (i & Hi & Hge & Hlt). lia.
Qed.

(** X12.  On a range of fewer than 6 elements [shell_sort] is the one
    pass [h_sort] with gap 1. *)
Theorem shell_sort_short_range (A : Type) (comp : A → A → bool)
    (first last : nat) (mem : list A) :
  first ≤ last ≤ length mem → last - first < 6 →
  shell_sort comp first last mem = h_sort comp first last 1 mem.
Proof.
  intros Hb Hn. unfold shell_sort.
  rewrite (knuth_seq_below_6 (last - first) Hn). cbv zeta.
  rewrite while_true by done. cbv beta iota.
  destruct (h_sort_spec comp first last 1 mem) as (mem' & -> & _); [lia..|].
  loop_step. by rewrite while_false by done.
Qed.

Lemma shell_sort_short_range_witness :
  1 ≤ 6 ≤ length [0; 5; 3; 4; 1; 2; 9] ∧ 6 - 1 < 6 ∧
  shell_sort Nat.ltb 1 6 [0; 5; 3; 4; 1; 2; 9]
  = h_sort Nat.ltb 1 6 1 [0; 5; 3; 4; 1; 2; 9].
Proof.
  split; [simpl; lia|]. split; [lia|].
  apply (shell_sort_short_range nat Nat.ltb 1 6 [0; 5; 3; 4; 1; 2; 9]).
  - simpl. lia.
  - lia.
Defined.

(** X13.  Under a strict weak ordering one pass of [h_sort] with gap 1 is
    [insertion_sort]: its inner loop has no [break] and goes on comparing
    down to the start of the range, but after the first element that is
    not smaller it swaps nothing. *)
Theorem h_sort_one_is_insertion_sort (A : Type) (comp : A → A → bool)
    (first last : nat) (mem : list A) :
  StrictWeakOrder comp → first ≤ last ≤ length mem →
  ∃ mem', h_sort comp first last 1 mem = Some mem' ∧
    insertion_sort comp first last mem = Some mem'.
Proof.
  intros Hswo Hb. eexists. split.
  - by apply h_sort_one_spec.
  - by apply insertion_sort_spec.
Qed.

Lemma h_sort_one_is_insertion_sort_witness :
  StrictWeakOrder (by_key (L:=ascii) Nat.ltb) ∧
  1 ≤ 6 ≤ length [(0, "z"); (2, "a"); (1, "b"); (2, "c"); (1, "d"); (0, "e");
                  (0, "y")] ∧
  ∃ mem',
    h_sort (by_key Nat.ltb) 1 6 1
      [(0, "z"); (2, "a"); (1, "b"); (2, "c"); (1, "d"); (0, "e"); (0, "y")]
    = Some mem' ∧
    insertion_sort (by_key Nat.ltb) 1 6
      [(0, "z"); (2, "a"); (1, "b"); (2, "c"); (1, "d"); (0, "e"); (0, "y")]
    = Some mem'.
Proof.
  split; [apply by_key_strict_weak_order, ltb_strict_weak_order|].
  split; [simpl; lia|].
  apply (h_sort_one_is_insertion_sort _ (by_key Nat.ltb) 1 6).
  - apply by_key_strict_weak_order, ltb_strict_weak_order.
  - simpl. lia.
Defined.

(** X14.  A range of no or one element is left as it is by
    [insertion_sort], [shell_sort] and [merge_sort], whatever the
    comparator; [merge_sort] does not use its buffer then, which may have
    no capacity at all. *)
Theorem short_range_untouched (A : Type) (comp : A → A → bool)
    (first last aux : nat) (mem buf : list A) :
  first ≤ last ≤ length mem → last - first ≤ 1 →
  insertion_sort comp first last mem = Some mem ∧
  shell_sort comp first last mem = Some mem ∧
  merge_sort comp first last aux mem buf = Some (mem, buf).
Proof.
  intros Hb Hn.
  assert (nondecreasing comp (slice first last mem)) as Hnd.
  { intros i j x y Hij _ Hy. apply lookup_lt_Some in Hy.
    rewrite length_slice in Hy by done. lia. }
  assert (insertion_sort comp first last mem = Some mem) as Hi
    by by apply insertion_sort_sorted_unchanged.
  split; [done|]. split; [by apply shell_sort_sorted_unchanged|].
  rewrite merge_sort_small, Hi by (done || lia). done.
Qed.

Lemma short_range_untouched_witness :
  2 ≤ 3 ≤ length [3; 2; 1; 0] ∧ 3 - 2 ≤ 1 ∧
  insertion_sort (λ _ _, true) 2 3 [3; 2; 1; 0] = Some [3; 2; 1; 0] ∧
  shell_sort (λ _ _, true) 2 3 [3; 2; 1; 0] = Some [3; 2; 1; 0] ∧
  merge_sort (λ _ _, true) 2 3 0 [3; 2; 1; 0] [] = Some ([3; 2; 1; 0], []).
Proof.
  split; [simpl; lia|]. split; [lia|].
  apply (short_range_untouched nat (λ _ _, true) 2 3 0 [3; 2; 1; 0] []).
  - simpl. lia.
  - lia.
Defined.

(** X15.  Under a strict weak ordering [merge_sort] leaves a range that is
    already non-decreasing as it is, on every range whose length is at
    most 16 or leaves a remainder of 0 or of more than 16 when divided by
    32. *)
Theorem merge_sort_sorted_unchanged (A : Type) (comp : A → A → bool)
    (first last aux : nat) (mem buf : list A) :
  StrictWeakOrder comp →
  first ≤ last ≤ length mem → aux + (last - first) ≤ length buf →
  last - first ≤ 16 ∨ (last - first) mod 32 = 0 ∨ 16 < (last - first) mod 32 →
  nondecreasing comp (slice first last mem) →
  ∃ buf', merge_sort comp first last aux mem buf = Some (mem, buf').
Proof.
  intros Hswo Hb Haux Hn Hnd.
  destruct (decide (last - first ≤ 16)) as [Hsmall|Hbig].
  { rewrite merge_sort_small by done.
    rewrite insertion_sort_sorted_unchanged by done. by exists buf. }
  destruct (merge_sort_large comp first last aux mem buf Hb Haux)
    as (mem' & buf' & c & -> & Hom & _ & Hc & _ & _ & Hsorted); [lia|].
  exists buf'. do 2 f_equal.
  assert (c = last - first) as ->.
  { destruct Hc as [[-> _]|(j & -> & Hj)]; [done|].
    pose proof (unpaired_remainder _ _ Hj). lia. }
  assert (length (slice first last mem) = last - first) as HL
    by (rewrite length_slice; lia).
  assert (length (slice aux (aux + (last - first)) buf) = last - first)
    as HB by (rewrite length_slice; lia).
  rewrite drop_ge, app_nil_r, take_ge in Hsorted by lia.
  destruct (Hsorted Hswo (nondecreasing_nil comp)) as [Hnd' Hkept].
  apply (same_outside_eq first last mem); [done|done|done|].
  symmetry. by apply (stable_sorted_unique comp Hswo).
Qed.

Lemma merge_sort_sorted_unchanged_witness :
  StrictWeakOrder Nat.ltb ∧
  2 ≤ 52 ≤ length (seq 0 60) ∧ 1 + (52 - 2) ≤ length (replicate 60 7) ∧
  (52 - 2 ≤ 16 ∨ (52 - 2) mod 32 = 0 ∨ 16 < (52 - 2) mod 32) ∧
  nondecreasing Nat.ltb (slice 2 52 (seq 0 60)) ∧
  ∃ buf', merge_sort Nat.ltb 2 52 1 (seq 0 60) (replicate 60 7)
          = Some (seq 0 60, buf').
Proof.
  assert (nondecreasing Nat.ltb (slice 2 52 (seq 0 60))) as Hnd.
  { change (slice 2 52 (seq 0 60)) with (seq 2 50). apply seq_nondecreasing. }
  split; [exact ltb_strict_weak_order|].
  split; [vm_compute; lia|]. split; [vm_compute; lia|].
  split; [right; right; vm_compute; lia|]. split; [exact Hnd|].
  apply (merge_sort_sorted_unchanged nat Nat.ltb 2 52 1).
  - exact ltb_strict_weak_order.
  - vm_compute. lia.
  - vm_compute. lia.
  - right. right. vm_compute. lia.
  - exact Hnd.
Defined.

(** X16.  A pass of [h_sort] whose gap is not smaller than the length of
    the range compares nothing and leaves the storage as it is: the outer
    loop starts at [first + h], which is not before [last]. *)
Theorem h_sort_wide_gap (A : Type) (comp : A → A → bool)
    (first last h : nat) (mem : list A) :
  last - first ≤ h → h_sort comp first last h mem = Some mem.
Proof.
  intros Hh. unfold h_sort. rewrite while_false; [done|].
  cbv beta iota. apply Nat.ltb_ge. lia.
Qed.

Lemma h_sort_wide_gap_witness :
  4 - 1 ≤ 3 ∧ h_sort Nat.ltb 1 4 3 [9; 8; 7; 6; 5] = Some [9; 8; 7; 6; 5].
Proof.
  split; [lia|]. apply (h_sort_wide_gap nat Nat.ltb 1 4 3). lia.
Defined.

(** X17.  [shell_sort] is a sequence of passes of [h_sort] over the whole
    range: with [k_i] the first term of the sequence 1, 4, 13, 40, ...
    that is not below [n/3], for [n] the length of the range, the gaps
    of the passes are [k_i], [k_(i-1)], ..., [k_0 = 1], in this order;
    dividing a term by 3 gives the term before it.  There are [i + 1]
    passes, and the last one has gap 1. *)
Theorem shell_sort_gap_sequence (A : Type) (comp : A → A → bool)
    (first last : nat) (mem : list A) :
  ∃ i, knuth_seq (last - first) = knuth_term i ∧
    (last - first) / 3 ≤ knuth_term i ∧
    (∀ j, j < i → knuth_term j < (last - first) / 3) ∧
    shell_sort comp first last mem = gap_passes comp first last i mem.
Proof.
  destruct (knuth_seq_spec (last - first)) as (i & Hi & Hge & Hlt).
  exists i. do 3 (split; [done|]).
  unfold shell_sort. cbv zeta. rewrite Hi.
  rewrite shell_sort_loop_passes by apply knuth_term_pos.
  by destruct (gap_passes comp first last i mem).
Qed.
